(** * Task lifecycle manager: a shallow embedding of [task_manager.py]

    The module keeps two SQLite tables, [tasks] and [task_history], behind one
    shared connection, sends webhook notifications and runs scripts of
    automated tasks.  The embedding keeps the tables as lists of rows in
    storage order, the connection as a pair of a live view and the last
    committed snapshot, and everything the program cannot decide by itself
    (statement failures, the file system, child processes) as an environment
    the operations consult. *)

From Stdlib Require Import Ascii String List Bool Arith Lia Permutation Sorted.
Import ListNotations.
Local Open Scope string_scope.
Local Open Scope list_scope.

(** ** Data model *)

(** [datetime.datetime.now().isoformat()]: a logical clock that advances at
    every reading, so later readings compare greater, as ISO timestamps do. *)
Definition Timestamp := nat.

(** [class TaskStatus(Enum)]: the values are plain strings and every column
    that holds one is a [TEXT] column. *)
Module TaskStatus.
Definition PENDING := "pending".
Definition IN_PROGRESS := "in_progress".
Definition COMPLETED := "completed".
Definition BLOCKED := "blocked".
Definition FAILED := "failed".
End TaskStatus.

(** A value of the [parameters] mapping, kept with the text the executor
    puts on the command line: [str(value)] for a scalar, [json.dumps(value)]
    for a list or a dict. *)
Inductive ParamValue :=
| Scalar (text : string)
| Composite (json : string).

(** One row of [tasks]; the JSON columns hold the decoded value. *)
Record Task := {
  id : string;
  title : string;
  description : option string;
  assignee : option string;
  executor : option string;
  due_date : option string;
  status : string;
  priority : string;
  tags : list string;
  prerequisites : list string;
  type : string;
  schedule : option string;
  trigger : option string;
  script : option string;
  parameters : list (string * ParamValue);
  created_at : Timestamp;
  updated_at : Timestamp
}.

(** One row of [task_history] (the autoincrement key is the list position). *)
Record TaskHistory := {
  task_id : string;
  old_status : option string;
  new_status : string;
  changed_by : string;
  timestamp : Timestamp;
  comment : option string
}.

Record DB := {
  tasks : list Task;
  task_history : list TaskHistory
}.

(** The payload of a webhook notification. *)
Inductive Notification :=
| TaskCreated (n_task_id n_title : string) (n_assignee : option string)
              (n_timestamp : Timestamp)
| StatusChanged (n_task_id n_title n_old_status n_new_status : string)
                (n_timestamp : Timestamp).

(** An invocation of one of the two notifiers, before it looks at
    [notify_assignees]. *)
Inductive NotifyCall :=
| NotifyTaskCreated (c_task_id c_title : string) (c_assignee : option string)
| NotifyStatusChange (c_task_id c_title c_old_status c_new_status : string).

Record Webhook := {
  events : list string;
  url : option string
}.

(** What [subprocess.Popen(...).communicate()] gives back. *)
Inductive ProcResult :=
| Exited (returncode : nat) (stdout stderr : string)
| SpawnError (message : string).

(** The statements that can raise. *)
Inductive Stmt :=
| SelectTask | SelectHistory | SelectTasks
| UpdateTask | InsertTask | InsertHistory | Commit
| ExpandHeaders.

(** The environment of a manager: its configuration and the answers of the
    outside world.  [fails s t] says that statement [s] raises when it is
    executed at time [t]. *)
Record Env := {
  enabled : bool;
  notify_assignees : bool;
  webhooks : list Webhook;
  fails : Stmt -> Timestamp -> bool;
  path_exists : Timestamp -> string -> bool;
  popen : Timestamp -> string -> ProcResult
}.

(** The state: the connection ([db] is what its cursors see, [committed] the
    last committed snapshot), the clock, and the traces of what left the
    process: notifier invocations, HTTP posts, spawned commands, and the
    executor's invocations. *)
Record World := {
  db : DB;
  committed : DB;
  clock : Timestamp;
  notify_calls : list NotifyCall;
  posted : list (string * Notification);
  spawned : list string;
  executor_calls : list string
}.

Definition with_db (d : DB) (w : World) : World :=
  {| db := d; committed := committed w; clock := clock w;
     notify_calls := notify_calls w; posted := posted w;
     spawned := spawned w; executor_calls := executor_calls w |}.

Definition with_committed (d : DB) (w : World) : World :=
  {| db := db w; committed := d; clock := clock w;
     notify_calls := notify_calls w; posted := posted w;
     spawned := spawned w; executor_calls := executor_calls w |}.

Definition with_clock (t : Timestamp) (w : World) : World :=
  {| db := db w; committed := committed w; clock := t;
     notify_calls := notify_calls w; posted := posted w;
     spawned := spawned w; executor_calls := executor_calls w |}.

Definition with_notify_calls (l : list NotifyCall) (w : World) : World :=
  {| db := db w; committed := committed w; clock := clock w;
     notify_calls := l; posted := posted w;
     spawned := spawned w; executor_calls := executor_calls w |}.

Definition with_posted (l : list (string * Notification)) (w : World) : World :=
  {| db := db w; committed := committed w; clock := clock w;
     notify_calls := notify_calls w; posted := l;
     spawned := spawned w; executor_calls := executor_calls w |}.

Definition with_spawned (l : list string) (w : World) : World :=
  {| db := db w; committed := committed w; clock := clock w;
     notify_calls := notify_calls w; posted := posted w;
     spawned := l; executor_calls := executor_calls w |}.

Definition with_executor_calls (l : list string) (w : World) : World :=
  {| db := db w; committed := committed w; clock := clock w;
     notify_calls := notify_calls w; posted := posted w;
     spawned := spawned w; executor_calls := l |}.

(** ** A state and exception monad *)

Inductive Res (A : Type) :=
| Val (a : A)
| Raise (e : string).
Arguments Val {A} a.
Arguments Raise {A} e.

Definition M (A : Type) := World -> Res A * World.

Definition ret {A} (a : A) : M A := fun w => (Val a, w).

Definition raise {A} (e : string) : M A := fun w => (Raise e, w).

Definition bind {A B} (m : M A) (k : A -> M B) : M B :=
  fun w =>
    match m w with
    | (Val a, w') => k a w'
    | (Raise e, w') => (Raise e, w')
    end.

(** [try: body except Exception as e: handler(e)] *)
Definition try_except {A} (body : M A) (handler : string -> M A) : M A :=
  fun w =>
    match body w with
    | (Val a, w') => (Val a, w')
    | (Raise e, w') => handler e w'
    end.

Declare Scope py_scope.
Delimit Scope py_scope with py.
Notation "x <- m ;; k" := (bind m (fun x => k))
  (at level 61, m at next level, right associativity) : py_scope.
Notation "m ;; k" := (bind m (fun _ => k))
  (at level 61, right associativity) : py_scope.
Local Open Scope py_scope.

(** The value an operation returned, and the state it left. *)
Definition returned {A} (r : Res A * World) : Res A := fst r.
Definition after {A} (r : Res A * World) : World := snd r.

(** ** Configuration entries *)

(** The keyword arguments of [add_or_update_task].  The id is a string, as
    the signature declares ([task_id: str]); rows without an id are not part
    of the model. *)
Record TaskFields := {
  arg_task_id : string;
  arg_title : string;
  arg_description : option string;
  arg_assignee : option string;
  arg_executor : option string;
  arg_due_date : option string;
  arg_status : string;
  arg_priority : string;
  arg_tags : option (list string);
  arg_prerequisites : option (list string);
  arg_task_type : string;
  arg_schedule : option string;
  arg_trigger : option string;
  arg_script : option string;
  arg_parameters : option (list (string * ParamValue))
}.

(** A task definition of the manifest: a dict read with [.get].  An entry
    is taken to have an [id] and a [title]; the other keys may be absent. *)
Record TaskDef := {
  def_id : string;
  def_title : string;
  def_description : option string;
  def_assignee : option string;
  def_due_date : option string;
  def_status : option string;
  def_priority : option string;
  def_tags : option (list string);
  def_prerequisites : option (list string);
  def_executor : option string;
  def_schedule : option string;
  def_trigger : option string;
  def_script : option string;
  def_parameters : option (list (string * ParamValue))
}.

Record Config := {
  manual : list TaskDef;
  automated : list TaskDef
}.

(** ** Small Python idioms *)

(** [d.get(key, default)] *)
Definition get_or {A} (o : option A) (default : A) : A :=
  match o with Some a => a | None => default end.

(** [x or []] for a list that may be [None]. *)
Definition or_empty {A} (o : option (list A)) : list A :=
  match o with Some l => l | None => [] end.

(** Truthiness of an optional string: [None] and the empty string are false. *)
Definition truthy (o : option string) : bool :=
  match o with
  | Some s => negb (s =? "")
  | None => false
  end.

(** [f"{x}"] of an optional string. *)
Definition fmt (o : option string) : string :=
  match o with Some s => s | None => "None" end.

(** [s.endswith(suffix)] *)
Definition endswith (s suffix : string) : bool :=
  let n := String.length s in
  let m := String.length suffix in
  Nat.leb m n && (substring (n - m) m s =? suffix).

(** A text is a Python [str] in its UTF-8 encoding, one [ascii] per byte.
    A byte [10xxxxxx] continues the code point that the byte before it
    belongs to; every other byte starts a code point. *)
Definition continues (c : ascii) : bool :=
  match c with
  | Ascii _ _ _ _ _ _ b6 b7 => b7 && negb b6
  end.

(** [len(s)]: the number of code points. *)
Fixpoint code_points (s : string) : nat :=
  match s with
  | EmptyString => 0
  | String c rest =>
      if continues c then code_points rest else S (code_points rest)
  end.

(** [s[:n]]: the first [n] code points, each with all its bytes. *)
Fixpoint prefix (n : nat) (s : string) {struct s} : string :=
  match s with
  | EmptyString => EmptyString
  | String c rest =>
      if continues c then String c (prefix n rest)
      else
        match n with
        | 0 => EmptyString
        | S m => String c (prefix m rest)
        end
  end.

Definition has_id (k : string) (r : Task) : bool := id r =? k.

Definition about (k : string) (h : TaskHistory) : bool := task_id h =? k.

(** [ORDER BY timestamp DESC] over rows given in insertion order. *)
Fixpoint insert_desc (h : TaskHistory) (l : list TaskHistory) : list TaskHistory :=
  match l with
  | [] => [h]
  | x :: rest =>
      if Nat.ltb (timestamp x) (timestamp h) then h :: l else x :: insert_desc h rest
  end.

Definition order_by_timestamp_desc (l : list TaskHistory) : list TaskHistory :=
  fold_left (fun acc h => insert_desc h acc) l [].

(** ** The manager *)

Section TaskManager.

Variable env : Env.
Variable config : Config.

Definition read {A} (f : World -> A) : M A := fun w => (Val (f w), w).

Definition modify (f : World -> World) : M unit := fun w => (Val tt, f w).

(** [datetime.datetime.now()] *)
Definition now : M Timestamp :=
  fun w => (Val (clock w), with_clock (S (clock w)) w).

(** A statement on the connection: it takes its turn on the clock and
    either raises, with no effect, or goes on. *)
Definition execute (s : Stmt) : M unit :=
  fun w =>
    if fails env s (clock w)
    then (Raise "statement failed", with_clock (S (clock w)) w)
    else (Val tt, with_clock (S (clock w)) w).

(** [SELECT ... FROM tasks WHERE id = ?] with [fetchone()] *)
Definition select_task (k : string) : M (option Task) :=
  execute SelectTask ;;
  read (fun w => find (has_id k) (tasks (db w))).

(** [UPDATE tasks SET ... WHERE id = ?] *)
Definition update_tasks (k : string) (f : Task -> Task) : M unit :=
  execute UpdateTask ;;
  modify (fun w =>
    with_db {| tasks := map (fun r => if has_id k r then f r else r)
                            (tasks (db w));
               task_history := task_history (db w) |} w).

(** [INSERT INTO tasks ...]; [id] is the primary key. *)
Definition insert_task (r : Task) : M unit :=
  execute InsertTask ;;
  present <- read (fun w => existsb (has_id (id r)) (tasks (db w))) ;;
  if (present : bool) then raise "UNIQUE constraint failed: tasks.id"
  else modify (fun w =>
    with_db {| tasks := tasks (db w) ++ [r];
               task_history := task_history (db w) |} w).

(** [INSERT INTO task_history ...] *)
Definition insert_history (h : TaskHistory) : M unit :=
  execute InsertHistory ;;
  modify (fun w =>
    with_db {| tasks := tasks (db w);
               task_history := task_history (db w) ++ [h] |} w).

(** [self.conn.commit()] *)
Definition commit : M unit :=
  execute Commit ;;
  modify (fun w => with_committed (db w) w).

(** [self.conn.rollback()] *)
Definition rollback : M unit :=
  modify (fun w => with_db (committed w) w).

(** [_add_task_history]: the exception of the insert stops here. *)
Definition _add_task_history (k : string) (old : option string)
    (new who : string) (note : option string) : M bool :=
  try_except
    (current_time <- now ;;
     insert_history {| task_id := k; old_status := old; new_status := new;
                       changed_by := who; timestamp := current_time;
                       comment := note |} ;;
     ret true)
    (fun _ => ret false).

Definition subscribed (event_type : string) (wh : Webhook) : bool :=
  existsb (String.eqb event_type) (events wh).

(** The loop of [_send_webhook_notifications].  The substitution of
    environment variables in the headers runs outside the [try] of the
    post, so what it raises reaches the caller; the post itself never
    does. *)
Fixpoint send_to (whs : list Webhook) (event_type : string)
    (data : Notification) : M unit :=
  match whs with
  | [] => ret tt
  | wh :: rest =>
      (if negb (subscribed event_type wh) then ret tt
       else if negb (truthy (url wh)) then ret tt
       else
         execute ExpandHeaders ;;
         modify (fun w => with_posted (posted w ++ [(fmt (url wh), data)]) w)) ;;
      send_to rest event_type data
  end.

Definition _send_webhook_notifications (event_type : string)
    (data : Notification) : M unit :=
  send_to (webhooks env) event_type data.

Definition _notify_task_created (k ttl : string) (who : option string)
    : M unit :=
  modify (fun w =>
    with_notify_calls (notify_calls w ++ [NotifyTaskCreated k ttl who]) w) ;;
  if negb (notify_assignees env) then ret tt
  else
    t <- now ;;
    _send_webhook_notifications "task.created" (TaskCreated k ttl who t).

Definition _notify_status_change (k ttl old new : string) : M unit :=
  modify (fun w =>
    with_notify_calls (notify_calls w ++ [NotifyStatusChange k ttl old new]) w) ;;
  if negb (notify_assignees env) then ret tt
  else
    t <- now ;;
    _send_webhook_notifications "task.status_changed"
      (StatusChanged k ttl old new t).

(** The row written by the [UPDATE] of [add_or_update_task]: every column
    but [id] and [created_at] comes from the arguments. *)
Definition updated_row (a : TaskFields) (current_time : Timestamp) (r : Task)
    : Task :=
  {| id := id r;
     title := arg_title a; description := arg_description a;
     assignee := arg_assignee a; executor := arg_executor a;
     due_date := arg_due_date a; status := arg_status a;
     priority := arg_priority a; tags := or_empty (arg_tags a);
     prerequisites := or_empty (arg_prerequisites a);
     type := arg_task_type a; schedule := arg_schedule a;
     trigger := arg_trigger a; script := arg_script a;
     parameters := or_empty (arg_parameters a);
     created_at := created_at r; updated_at := current_time |}.

(** The row written by its [INSERT]. *)
Definition new_row (a : TaskFields) (current_time : Timestamp) : Task :=
  {| id := arg_task_id a;
     title := arg_title a; description := arg_description a;
     assignee := arg_assignee a; executor := arg_executor a;
     due_date := arg_due_date a; status := arg_status a;
     priority := arg_priority a; tags := or_empty (arg_tags a);
     prerequisites := or_empty (arg_prerequisites a);
     type := arg_task_type a; schedule := arg_schedule a;
     trigger := arg_trigger a; script := arg_script a;
     parameters := or_empty (arg_parameters a);
     created_at := current_time; updated_at := current_time |}.

Definition add_or_update_task (a : TaskFields) : M bool :=
  try_except
    (existing_task <- select_task (arg_task_id a) ;;
     current_time <- now ;;
     match existing_task with
     | Some row =>
         let old := status row in
         update_tasks (arg_task_id a) (updated_row a current_time) ;;
         if negb (old =? arg_status a) then
           _add_task_history (arg_task_id a) (Some old) (arg_status a)
             "system" (Some "Status zaktualizowany podczas synchronizacji") ;;
           _notify_status_change (arg_task_id a) (arg_title a) old
             (arg_status a)
         else ret tt
     | None =>
         insert_task (new_row a current_time) ;;
         _add_task_history (arg_task_id a) None (arg_status a)
           "system" (Some "Zadanie utworzone") ;;
         _notify_task_created (arg_task_id a) (arg_title a) (arg_assignee a)
     end ;;
     commit ;;
     ret true)
    (fun _ => rollback ;; ret false).

(** The row written by the [UPDATE] of [update_task_status]. *)
Definition set_status (new : string) (current_time : Timestamp) (r : Task)
    : Task :=
  {| id := id r;
     title := title r; description := description r;
     assignee := assignee r; executor := executor r;
     due_date := due_date r; status := new;
     priority := priority r; tags := tags r;
     prerequisites := prerequisites r;
     type := type r; schedule := schedule r;
     trigger := trigger r; script := script r;
     parameters := parameters r;
     created_at := created_at r; updated_at := current_time |}.

Definition update_task_status (k new who : string) (note : option string)
    : M bool :=
  try_except
    (result <- select_task k ;;
     match result with
     | None => ret false
     | Some row =>
         let old := status row in
         if old =? new then ret true
         else
           current_time <- now ;;
           update_tasks k (set_status new current_time) ;;
           _add_task_history k (Some old) new who note ;;
           _notify_status_change k (title row) old new ;;
           commit ;;
           ret true
     end)
    (fun _ => rollback ;; ret false).

(** [get_task]: the row and its history, newest first. *)
Definition get_task (k : string) : M (option (Task * list TaskHistory)) :=
  try_except
    (result <- select_task k ;;
     match result with
     | None => ret None
     | Some row =>
         execute SelectHistory ;;
         history <- read (fun w =>
           order_by_timestamp_desc (filter (about k) (task_history (db w)))) ;;
         ret (Some (row, history))
     end)
    (fun _ => ret None).

(** A filter of [list_tasks] on a [NOT NULL] column: applied when truthy. *)
Definition keeps (wanted : option string) (v : string) : bool :=
  if truthy wanted then v =? fmt wanted else true.

(** The same on a nullable column: [NULL = ?] selects nothing. *)
Definition keeps_nullable (wanted : option string) (v : option string) : bool :=
  if truthy wanted then
    match v with Some x => x =? fmt wanted | None => false end
  else true.

(** [set(wanted).issubset(set(have))] *)
Definition issubset (wanted have : list string) : bool :=
  forallb (fun t => existsb (String.eqb t) have) wanted.

Definition selected (st ty who prio : option string) (tgs : list string)
    (r : Task) : bool :=
  keeps st (status r) && keeps ty (type r) &&
  keeps_nullable who (assignee r) && keeps prio (priority r) &&
  match tgs with [] => true | _ => issubset tgs (tags r) end.

Definition list_tasks (st ty who prio : option string) (tgs : list string)
    : M (list Task) :=
  try_except
    (execute SelectTasks ;;
     read (fun w => filter (selected st ty who prio tgs) (tasks (db w))))
    (fun _ => ret []).

(** *** The executor *)

Definition param_text (v : ParamValue) : string :=
  match v with
  | Scalar text => text
  | Composite json => json
  end.

(** [params_str]: one [ --key=value] per entry, in the mapping's order. *)
Definition params_str (ps : list (string * ParamValue)) : string :=
  fold_left (fun acc kv =>
               (acc ++ " --" ++ fst kv ++ "=" ++ param_text (snd kv))%string)
            ps "".

(** The interpreter is chosen by the extension of the script. *)
Definition command (script_path : string) (ps : list (string * ParamValue))
    : string :=
  (if endswith script_path ".py" then "python " ++ script_path ++ params_str ps
   else if endswith script_path ".sh" then "bash " ++ script_path ++ params_str ps
   else if endswith script_path ".js" then "node " ++ script_path ++ params_str ps
   else script_path ++ params_str ps)%string.

(** [not script_path or not os.path.exists(script_path)] *)
Definition script_missing (script_path : option string) : M bool :=
  if negb (truthy script_path) then ret true
  else read (fun w => negb (path_exists env (clock w) (fmt script_path))).

(** [subprocess.Popen(cmd, shell=True, ...)] and [communicate()] *)
Definition run (cmd : string) : M (nat * string * string) :=
  modify (fun w => with_spawned (spawned w ++ [cmd]) w) ;;
  outcome <- read (fun w => popen env (clock w) cmd) ;;
  match outcome with
  | Exited returncode stdout stderr => ret (returncode, stdout, stderr)
  | SpawnError message => raise message
  end.

Definition execute_automated_task (k : string) : M bool :=
  modify (fun w => with_executor_calls (executor_calls w ++ [k]) w) ;;
  try_except
    (task <- get_task k ;;
     match task with
     | None => ret false
     | Some (row, _) =>
         if negb (type row =? "automated") then ret false
         else
           update_task_status k TaskStatus.IN_PROGRESS "system"
             (Some "Rozpoczęcie wykonywania zadania automatycznego") ;;
           let script_path := script row in
           missing <- script_missing script_path ;;
           if (missing : bool) then
             update_task_status k TaskStatus.FAILED "system"
               (Some ("Nie znaleziono skryptu " ++ fmt script_path)%string) ;;
             ret false
           else
             out <- run (command (fmt script_path) (parameters row)) ;;
             let '(returncode, stdout, stderr) := out in
             if Nat.eqb returncode 0 then
               update_task_status k TaskStatus.COMPLETED "system"
                 (Some ("Zadanie wykonane pomyślnie: " ++ prefix 200 stdout)%string) ;;
               ret true
             else
               update_task_status k TaskStatus.FAILED "system"
                 (Some ("Błąd: " ++ prefix 200 stderr)%string) ;;
               ret false
     end)
    (fun e =>
       update_task_status k TaskStatus.FAILED "system"
         (Some ("Wyjątek: " ++ e)%string) ;;
       ret false).

(** *** The scheduler's scan *)

Fixpoint scan (automated_tasks : list Task) : M unit :=
  match automated_tasks with
  | [] => ret tt
  | task :: rest =>
      (if negb (status task =? TaskStatus.PENDING) then ret tt
       else if truthy (schedule task) then
         execute_automated_task (id task) ;; ret tt
       else ret tt) ;;
      scan rest
  end.

Definition check_and_execute_scheduled_tasks : M unit :=
  automated_tasks <- list_tasks None (Some "automated") None None [] ;;
  current_time <- now ;;
  scan automated_tasks.

(** *** Synchronisation with the manifest *)

Definition manual_fields (d : TaskDef) : TaskFields :=
  {| arg_task_id := def_id d; arg_title := def_title d;
     arg_description := def_description d;
     arg_assignee := def_assignee d; arg_executor := None;
     arg_due_date := def_due_date d;
     arg_status := get_or (def_status d) "pending";
     arg_priority := get_or (def_priority d) "medium";
     arg_tags := Some (get_or (def_tags d) []);
     arg_prerequisites := Some (get_or (def_prerequisites d) []);
     arg_task_type := "manual";
     arg_schedule := None; arg_trigger := None; arg_script := None;
     arg_parameters := None |}.

Definition automated_fields (d : TaskDef) : TaskFields :=
  {| arg_task_id := def_id d; arg_title := def_title d;
     arg_description := def_description d;
     arg_assignee := None; arg_executor := def_executor d;
     arg_due_date := None;
     arg_status := get_or (def_status d) "pending";
     arg_priority := get_or (def_priority d) "medium";
     arg_tags := Some (get_or (def_tags d) []);
     arg_prerequisites := None;
     arg_task_type := "automated";
     arg_schedule := def_schedule d; arg_trigger := def_trigger d;
     arg_script := def_script d;
     arg_parameters := Some (get_or (def_parameters d) []) |}.

(** [for task in ...: self.add_or_update_task(...)], the result dropped. *)
Fixpoint upsert_all (l : list TaskFields) : M unit :=
  match l with
  | [] => ret tt
  | a :: rest => add_or_update_task a ;; upsert_all rest
  end.

Definition sync_tasks_from_config : M unit :=
  if negb (enabled env) then ret tt
  else
    upsert_all (map manual_fields (manual config)) ;;
    upsert_all (map automated_fields (automated config)).

End TaskManager.

(** ** The command-line front end ([MicroFunc.task_update] of microfunc.py) *)

Definition valid_statuses : list string :=
  ["pending"; "in_progress"; "completed"; "blocked"; "failed"].

(** The command of a loaded project whose manager is configured: the status
    is checked here, before the manager is called; a rejected status is
    logged and the command returns. *)
Definition task_update (env : Env) (k st : string) (note : option string)
    : M unit :=
  if negb (existsb (String.eqb st) valid_statuses) then ret tt
  else update_task_status env k st "user" note ;; ret tt.

(** ** Sequences of store operations *)

Inductive Op :=
| AddOrUpdate (a : TaskFields)
| UpdateStatus (k new who : string) (note : option string)
| Execute (k : string).

Definition run_op (env : Env) (o : Op) : M bool :=
  match o with
  | AddOrUpdate a => add_or_update_task env a
  | UpdateStatus k new who note => update_task_status env k new who note
  | Execute k => execute_automated_task env k
  end.

Fixpoint run_ops (env : Env) (ops : list Op) (w : World) : World :=
  match ops with
  | [] => w
  | o :: rest => run_ops env rest (after (run_op env o w))
  end.

(** ** Properties of stores and environments *)

(** No transaction is open: the connection sees what was committed. *)
Definition idle (w : World) : Prop := db w = committed w.

(** No statement ever raises: neither a statement on the connection nor the
    expansion of the headers of a webhook. *)
Definition fault_free (env : Env) : Prop :=
  forall s t, fails env s t = false.

(** The last entry written for a task, in insertion order. *)
Fixpoint latest_entry (k : string) (h : list TaskHistory) : option TaskHistory :=
  match h with
  | [] => None
  | x :: rest =>
      match latest_entry k rest with
      | Some y => Some y
      | None => if about k x then Some x else None
      end
  end.

Definition latest_status (d : DB) (k : string) : option string :=
  option_map new_status (latest_entry k (task_history d)).

(** Every task has the status its latest history entry records. *)
Definition consistent (d : DB) : Prop :=
  forall r, In r (tasks d) -> latest_status d (id r) = Some (status r).

(** The primary key of [tasks]. *)
Definition unique_ids (d : DB) : Prop := NoDup (map id (tasks d)).

Definition lookup (k : string) (d : DB) : option Task :=
  find (has_id k) (tasks d).

(** The posts a notification leads to: one per webhook that subscribes to
    the event and has a url, in the order of the configuration. *)
Definition deliveries (env : Env) (event_type : string) (data : Notification)
    : list (string * Notification) :=
  map (fun wh => (fmt (url wh), data))
      (filter (fun wh => subscribed event_type wh && truthy (url wh))
              (webhooks env)).

(** The row of a history entry. *)
Definition entry (k : string) (old : option string) (new who : string)
    (t : Timestamp) (note : option string) : TaskHistory :=
  {| task_id := k; old_status := old; new_status := new; changed_by := who;
     timestamp := t; comment := note |}.

(** The [tasks] table after [UPDATE ... WHERE id = k]. *)
Definition updated (k : string) (f : Task -> Task) (l : list Task) : list Task :=
  map (fun r => if has_id k r then f r else r) l.

(** The store after an execution of task [k] that ended with status [st]
    and comment [note]: the row has that status and the last history entry
    is the transition out of [in_progress]. *)
Definition ended (k st : string) (note : option string) (d : DB) : Prop :=
  option_map status (lookup k d) = Some st /\
  exists h t,
    task_history d =
    h ++ [entry k (Some TaskStatus.IN_PROGRESS) st "system" t note].

(** What a notifier leaves alone: the store, the spawned commands and the
    executor's trace. *)
Definition only_notifies (w w' : World) : Prop :=
  db w' = db w /\ committed w' = committed w /\
  spawned w' = spawned w /\ executor_calls w' = executor_calls w.

(** Nothing observable changed: the store and both notification traces. *)
Definition unchanged (w w' : World) : Prop :=
  db w' = db w /\ committed w' = committed w /\
  notify_calls w' = notify_calls w /\ posted w' = posted w.

(** A row with its [updated_at] column blanked. *)
Definition forget_updated_at (r : Task) : Task :=
  {| id := id r;
     title := title r; description := description r;
     assignee := assignee r; executor := executor r;
     due_date := due_date r; status := status r;
     priority := priority r; tags := tags r;
     prerequisites := prerequisites r;
     type := type r; schedule := schedule r;
     trigger := trigger r; script := script r;
     parameters := parameters r;
     created_at := created_at r; updated_at := 0 |}.

(** An auxiliary notion of the proofs about repeated upserts: the [UPDATE]
    of an upsert with arguments [a] would leave the row as it is, the time
    of the write apart.  What this means column by column is [carries]
    below. *)
Definition agrees (a : TaskFields) (r : Task) : Prop :=
  forget_updated_at (updated_row a 0 r) = forget_updated_at r.

(** The store holds the task of an upsert, as the upsert would write it. *)
Definition settled (a : TaskFields) (d : DB) : Prop :=
  (exists r, In r (tasks d) /\ id r = arg_task_id a) /\
  forall r, In r (tasks d) -> id r = arg_task_id a -> agrees a r.

(** The ids a manifest declares, manual tasks first. *)
Definition declared_ids (config : Config) : list string :=
  map def_id (manual config ++ automated config).

(** The tasks the scan hands to the executor. *)
Definition due (t : Task) : bool :=
  (status t =? TaskStatus.PENDING) && truthy (schedule t).

(** All the entries of the manifest, as [sync_tasks_from_config] upserts
    them. *)
Definition declared (config : Config) : list TaskFields :=
  map manual_fields (manual config) ++ map automated_fields (automated config).

(** ** Scenarios *)

Module Scenario.

Definition hook : Webhook :=
  {| events := ["task.created"; "task.status_changed"];
     url := Some "http://hooks.example/tasks" |}.

(** Nothing fails; [job.sh] exists and prints [ok]. *)
Definition quiet : Env :=
  {| enabled := true; notify_assignees := true; webhooks := [hook];
     fails := fun _ _ => false;
     path_exists := fun _ p => p =? "job.sh";
     popen := fun _ _ => Exited 0 "ok" "" |}.

(** The same, but every insert into [task_history] raises. *)
Definition history_fails : Env :=
  {| enabled := true; notify_assignees := true; webhooks := [hook];
     fails := fun s _ => match s with InsertHistory => true | _ => false end;
     path_exists := fun _ p => p =? "job.sh";
     popen := fun _ _ => Exited 0 "ok" "" |}.

Definition empty_db : DB := {| tasks := []; task_history := [] |}.

Definition empty : World :=
  {| db := empty_db; committed := empty_db; clock := 0;
     notify_calls := []; posted := []; spawned := [];
     executor_calls := [] |}.

Definition review : TaskDef :=
  {| def_id := "T1"; def_title := "Review"; def_description := None;
     def_assignee := Some "alice"; def_due_date := None;
     def_status := None; def_priority := None; def_tags := None;
     def_prerequisites := None; def_executor := None;
     def_schedule := None; def_trigger := None; def_script := None;
     def_parameters := None |}.

Definition job : TaskDef :=
  {| def_id := "J1"; def_title := "Job"; def_description := None;
     def_assignee := None; def_due_date := None;
     def_status := None; def_priority := None; def_tags := None;
     def_prerequisites := None; def_executor := Some "ci";
     def_schedule := Some "* * * * *"; def_trigger := Some "scheduled";
     def_script := Some "job.sh"; def_parameters := None |}.

(** The job again, declared as already completed. *)
Definition job_done : TaskDef :=
  {| def_id := "J1"; def_title := "Job"; def_description := None;
     def_assignee := None; def_due_date := None;
     def_status := Some "completed"; def_priority := None;
     def_tags := None;
     def_prerequisites := None; def_executor := Some "ci";
     def_schedule := Some "* * * * *"; def_trigger := Some "scheduled";
     def_script := Some "job.sh"; def_parameters := None |}.

(** The review again, declared as already completed. *)
Definition review_done : TaskDef :=
  {| def_id := "T1"; def_title := "Review"; def_description := None;
     def_assignee := Some "alice"; def_due_date := None;
     def_status := Some "completed"; def_priority := None;
     def_tags := None;
     def_prerequisites := None; def_executor := None;
     def_schedule := None; def_trigger := None; def_script := None;
     def_parameters := None |}.

Definition manifest : Config := {| manual := [review]; automated := [job] |}.

(** A manifest that declares the id [J1] twice, with two statuses. *)
Definition twice : Config := {| manual := []; automated := [job; job_done] |}.

(** The store after the first synchronisation of [manifest]. *)
Definition synced : World := after (sync_tasks_from_config quiet manifest empty).

(** The job, run once by the executor: it is now completed. *)
Definition ran : World := after (execute_automated_task quiet "J1" synced).

End Scenario.

(** ** More of the front end ([MicroFunc.task_execute] of microfunc.py) *)

(** The command of a loaded project whose manager is configured: the task
    is read and checked here before the executor is called. *)
Definition task_execute (env : Env) (k : string) : M unit :=
  task <- get_task env k ;;
  match task with
  | None => ret tt
  | Some (row, _) =>
      if negb (type row =? "automated") then ret tt
      else execute_automated_task env k ;; ret tt
  end.

(** ** More properties of stores *)

(** What identifies a row for good: its id and the time of its creation. *)
Definition key (r : Task) : string * Timestamp := (id r, created_at r).

(** The store [d'] holds everything [d] holds: the rows of [d] are there, in
    place and under the same keys, and its history is a prefix. *)
Definition grows (d d' : DB) : Prop :=
  (exists rows, map key (tasks d') = map key (tasks d) ++ rows) /\
  (exists entries, task_history d' = task_history d ++ entries).

(** Every history entry is about a stored task. *)
Definition referential (d : DB) : Prop :=
  forall e, In e (task_history d) -> exists r, In r (tasks d) /\ id r = task_id e.

(** Every history entry starts from the status the previous entry of the
    same task ended with, the first entry of a task from none. *)
Inductive chained : list TaskHistory -> Prop :=
| chained_nil : chained []
| chained_snoc h e :
    chained h ->
    old_status e = option_map new_status (latest_entry (task_id e) h) ->
    chained (h ++ [e]).

Definition faithful (d : DB) : Prop :=
  consistent d /\ referential d /\ chained (task_history d).

(** What the filters of [list_tasks] ask of a task: a filter that is [None]
    or empty asks nothing. *)
Definition wanted (st ty who prio : option string) (tgs : list string)
    (t : Task) : Prop :=
  (truthy st = true -> status t = fmt st) /\
  (truthy ty = true -> type t = fmt ty) /\
  (truthy who = true -> assignee t = Some (fmt who)) /\
  (truthy prio = true -> priority t = fmt prio) /\
  (forall x, In x tgs -> In x (tags t)).

(** Newest first. *)
Definition newer_first (a b : TaskHistory) : Prop := timestamp b <= timestamp a.

(** The webhooks a notification of an event can reach. *)
Definition reachable (env : Env) (event_type : string) (u : string) : Prop :=
  exists wh, In wh (webhooks env) /\ subscribed event_type wh = true /\
             url wh = Some u /\ u <> "".

(** [Q] holds of the state each operation of the manager leaves when it is
    started in [w], whatever its arguments. *)
Definition after_every_operation (env : Env) (config : Config) (w : World)
    (Q : World -> Prop) : Prop :=
  (forall a, Q (after (add_or_update_task env a w))) /\
  (forall k new who note, Q (after (update_task_status env k new who note w))) /\
  (forall k, Q (after (execute_automated_task env k w))) /\
  Q (after (check_and_execute_scheduled_tasks env w)) /\
  Q (after (sync_tasks_from_config env config w)).

(** What one upsert or one status transition of task [k] can do to the
    store: nothing; or rewrite the rows of [k] in place, keeping their keys;
    or, when [k] is not stored, append one row for it.  In the last two
    cases at most one history entry is appended, and it is about [k]. *)
Definition history_step (k : string) (d d' : DB) : Prop :=
  task_history d' = task_history d \/
  exists e, task_id e = k /\ task_history d' = task_history d ++ [e].

Definition touches (k : string) (d d' : DB) : Prop :=
  d' = d \/
  (exists f, (forall r, key (f r) = key r) /\
             tasks d' = updated k f (tasks d) /\ history_step k d d') \/
  (lookup k d = None /\
   exists r, id r = k /\ tasks d' = tasks d ++ [r] /\ history_step k d d').

(** The row holds what the manifest declares for a manual task, with the
    defaults of [sync_tasks_from_config] for what it leaves out. *)
Definition stores_manual (d : TaskDef) (r : Task) : Prop :=
  id r = def_id d /\ type r = "manual" /\
  title r = def_title d /\ description r = def_description d /\
  assignee r = def_assignee d /\ due_date r = def_due_date d /\
  status r = get_or (def_status d) "pending" /\
  priority r = get_or (def_priority d) "medium" /\
  tags r = get_or (def_tags d) [] /\
  prerequisites r = get_or (def_prerequisites d) [] /\
  executor r = None /\ schedule r = None /\ trigger r = None /\
  script r = None /\ parameters r = [].

(** The same for an automated task. *)
Definition stores_automated (d : TaskDef) (r : Task) : Prop :=
  id r = def_id d /\ type r = "automated" /\
  title r = def_title d /\ description r = def_description d /\
  executor r = def_executor d /\
  status r = get_or (def_status d) "pending" /\
  priority r = get_or (def_priority d) "medium" /\
  tags r = get_or (def_tags d) [] /\
  schedule r = def_schedule d /\ trigger r = def_trigger d /\
  script r = def_script d /\
  parameters r = get_or (def_parameters d) [] /\
  assignee r = None /\ due_date r = None /\ prerequisites r = [].

(** What an operation that has one change to announce does to the trace of
    notifier calls: it makes the call [c] once or not at all, and it makes
    it when it succeeds. *)
Definition announces (c : NotifyCall) (succeeded : bool) (w w' : World)
    : Prop :=
  (notify_calls w' = notify_calls w \/
   notify_calls w' = notify_calls w ++ [c]) /\
  (succeeded = true -> notify_calls w' = notify_calls w ++ [c]).

(** The operation left everything but the clock as it was. *)
Definition left_alone (w w' : World) : Prop :=
  unchanged w w' /\ spawned w' = spawned w /\
  executor_calls w' = executor_calls w.

(** The row holds, column by column, the arguments of an upsert: each
    argument as it was passed, and the empty list for a list or mapping that
    was not passed. *)
Definition carries (a : TaskFields) (r : Task) : Prop :=
  title r = arg_title a /\ description r = arg_description a /\
  assignee r = arg_assignee a /\ executor r = arg_executor a /\
  due_date r = arg_due_date a /\ status r = arg_status a /\
  priority r = arg_priority a /\
  tags r = match arg_tags a with Some l => l | None => [] end /\
  prerequisites r =
    match arg_prerequisites a with Some l => l | None => [] end /\
  type r = arg_task_type a /\ schedule r = arg_schedule a /\
  trigger r = arg_trigger a /\ script r = arg_script a /\
  parameters r = match arg_parameters a with Some l => l | None => [] end.



(** * Reasoning about runs *)

(** ** Rows and tables *)

Lemma has_id_true k r : has_id k r = true <-> id r = k.
Proof. unfold has_id. apply String.eqb_eq. Qed.

Lemma has_id_false k r : has_id k r = false <-> id r <> k.
Proof. unfold has_id. apply String.eqb_neq. Qed.


Lemma updated_row_id a t r : id (updated_row a t r) = id r.
Proof. reflexivity. Qed.


Lemma updated_keeps_others k f l r :
  id r <> k -> In r l -> In r (updated k f l).
Proof.
  intros N I. unfold updated. apply in_map_iff. exists r. split; auto.
  apply has_id_false in N. rewrite N. reflexivity.
Qed.

Lemma find_updated_other k j f l :
  j <> k -> (forall r, id (f r) = id r) ->
  find (has_id j) (updated k f l) = find (has_id j) l.
Proof.
  intros N F. induction l as [|a l IH]; cbn; auto.
  destruct (has_id k a) eqn:K.
  - assert (J : has_id j a = false).
    { apply has_id_true in K. apply has_id_false. congruence. }
    assert (J' : has_id j (f a) = false).
    { apply has_id_false. rewrite F. apply has_id_false. exact J. }
    rewrite J, J'. exact IH.
  - destruct (has_id j a); auto.
Qed.

Lemma find_updated_same k f l :
  (forall r, id (f r) = id r) ->
  find (has_id k) (updated k f l) = option_map f (find (has_id k) l).
Proof.
  intro F. induction l as [|a l IH]; cbn; auto.
  destruct (has_id k a) eqn:K.
  - assert (K' : has_id k (f a) = true).
    { apply has_id_true. rewrite F. apply has_id_true. exact K. }
    rewrite K'. reflexivity.
  - rewrite K. exact IH.
Qed.

Lemma find_app_other j l r :
  id r <> j -> find (has_id j) (l ++ [r]) = find (has_id j) l.
Proof.
  intro N. induction l as [|a l IH]; cbn.
  - apply has_id_false in N. rewrite N. reflexivity.
  - destruct (has_id j a); auto.
Qed.

Lemma find_app_new k l r :
  find (has_id k) l = None -> id r = k ->
  find (has_id k) (l ++ [r]) = Some r.
Proof.
  intros N I. induction l as [|a l IH]; cbn in *.
  - apply has_id_true in I. rewrite I. reflexivity.
  - destruct (has_id k a); [discriminate|auto].
Qed.

Lemma updated_types k new t l :
  map type (updated k (set_status new t) l) = map type l.
Proof.
  unfold updated. rewrite map_map. apply map_ext.
  intro r. destruct (has_id k r); reflexivity.
Qed.

(** ** How a run of a composed operation decomposes *)

Lemma bind_inv {A B} (m : M A) (k : A -> M B) w r w' :
  bind m k w = (r, w') ->
  (exists a w1, m w = (Val a, w1) /\ k a w1 = (r, w')) \/
  (exists e, m w = (Raise e, w') /\ r = Raise e).
Proof.
  unfold bind. destruct (m w) as [[a|e] w1]; intro H.
  - left. eauto.
  - right. inversion H; subst. eauto.
Qed.

Lemma try_except_inv {A} (body : M A) handler w r w' :
  try_except body handler w = (r, w') ->
  (exists a, body w = (Val a, w') /\ r = Val a) \/
  (exists e w1, body w = (Raise e, w1) /\ handler e w1 = (r, w')).
Proof.
  unfold try_except. destruct (body w) as [[a|e] w1]; intro H.
  - left. inversion H; subst. eauto.
  - right. eauto.
Qed.

Lemma execute_inv env s w r w' :
  execute env s w = (r, w') ->
  w' = with_clock (S (clock w)) w /\
  ((r = Val tt /\ fails env s (clock w) = false) \/
   (exists e, r = Raise e /\ fails env s (clock w) = true)).
Proof.
  unfold execute.
  destruct (fails env s (clock w)); intro H; inversion H; subst; eauto.
Qed.

Ltac tidy :=
  repeat (subst ||
    match goal with
    | H : Val _ = Val _ |- _ => inversion H; clear H
    | H : Raise _ = Raise _ |- _ => inversion H; clear H
    | H : Val _ = Raise _ |- _ => discriminate H
    | H : Raise _ = Val _ |- _ => discriminate H
    | H : (_, _) = (_, _) |- _ => inversion H; clear H
    end).

(** Splits a run [m w = (r, w')] along the paths of [m], down to the
    statements; notifier, executor and store operations stay folded. *)
Ltac paths H :=
  lazymatch type of H with
  | bind _ _ _ = _ =>
      let a := fresh "a" in let w1 := fresh "w" in let e := fresh "e" in
      let H1 := fresh "E" in let H2 := fresh "E" in let Q := fresh "Q" in
      apply bind_inv in H;
      destruct H as [(a & w1 & H1 & H2) | (e & H1 & Q)];
      [paths H1; tidy; try paths H2 | paths H1]; tidy
  | try_except _ _ _ = _ =>
      let a := fresh "a" in let w1 := fresh "w" in let e := fresh "e" in
      let H1 := fresh "E" in let H2 := fresh "E" in let Q := fresh "Q" in
      apply try_except_inv in H;
      destruct H as [(a & H1 & Q) | (e & w1 & H1 & H2)];
      [paths H1 | paths H1; tidy; try paths H2]; tidy
  | execute _ _ _ = _ =>
      let F := fresh "F" in let Q := fresh "Q" in let Q' := fresh "Q" in
      apply execute_inv in H;
      destruct H as [Q [[Q' F] | (? & Q' & F)]]; tidy
  | ret _ _ = _ => unfold ret in H; tidy
  | raise _ _ = _ => unfold raise in H; tidy
  | read _ _ = _ => unfold read in H; tidy
  | modify _ _ = _ => unfold modify in H; tidy
  | now _ = _ => unfold now in H; tidy
  | (match ?x with _ => _ end) _ = _ =>
      let D := fresh "D" in destruct x eqn:D; cbv beta iota in H; paths H
  | select_task _ _ _ = _ => unfold select_task in H; paths H
  | update_tasks _ _ _ _ = _ => unfold update_tasks in H; paths H
  | insert_task _ _ _ = _ => unfold insert_task in H; paths H
  | insert_history _ _ _ = _ => unfold insert_history in H; paths H
  | commit _ _ = _ => unfold commit in H; paths H
  | rollback _ = _ => unfold rollback in H; paths H
  | _add_task_history _ _ _ _ _ _ _ = _ =>
      unfold _add_task_history in H; paths H
  | script_missing _ _ _ = _ => unfold script_missing in H; paths H
  | run _ _ _ = _ => unfold run in H; paths H
  | _ => tidy
  end.

(** ** The notifiers *)

Lemma send_to_only_notifies env whs ev d w r w' :
  send_to env whs ev d w = (r, w') ->
  only_notifies w w' /\ notify_calls w' = notify_calls w.
Proof.
  revert w. induction whs as [|wh rest IH]; intros w E; cbn in E.
  - paths E. repeat split.
  - paths E.
    all: try (apply IH in E1; destruct E1 as ((A & B & C & D') & N);
              cbn in *; repeat split; congruence).
    all: repeat split.
Qed.

Ltac sent :=
  match goal with
  | H : send_to _ _ _ _ _ = _ |- _ =>
      apply send_to_only_notifies in H;
      let A := fresh in let B := fresh in let C := fresh in
      let D := fresh in let N := fresh in
      destruct H as ((A & B & C & D) & N)
  end.

Lemma notify_status_change_inv env k ttl old new w r w' :
  _notify_status_change env k ttl old new w = (r, w') ->
  only_notifies w w' /\
  notify_calls w' = notify_calls w ++ [NotifyStatusChange k ttl old new].
Proof.
  intro E. unfold _notify_status_change, _send_webhook_notifications in E.
  paths E; try sent; cbn in *; repeat split; congruence.
Qed.

Lemma notify_task_created_inv env k ttl who w r w' :
  _notify_task_created env k ttl who w = (r, w') ->
  only_notifies w w' /\
  notify_calls w' = notify_calls w ++ [NotifyTaskCreated k ttl who].
Proof.
  intro E. unfold _notify_task_created, _send_webhook_notifications in E.
  paths E; try sent; cbn in *; repeat split; congruence.
Qed.

Ltac notified :=
  repeat match goal with
  | H : _notify_status_change _ _ _ _ _ _ = _ |- _ =>
      apply notify_status_change_inv in H;
      let A := fresh in let B := fresh in let C := fresh in
      let D := fresh in let N := fresh in
      destruct H as ((A & B & C & D) & N)
  | H : _notify_task_created _ _ _ _ _ = _ |- _ =>
      apply notify_task_created_inv in H;
      let A := fresh in let B := fresh in let C := fresh in
      let D := fresh in let N := fresh in
      destruct H as ((A & B & C & D) & N)
  end.

(** ** Status transitions *)

(** Every way [update_task_status] can end, from a store with no open
    transaction. *)
Lemma update_task_status_run env k new who note w r w' :
  idle w ->
  update_task_status env k new who note w = (r, w') ->
  idle w' /\ spawned w' = spawned w /\ executor_calls w' = executor_calls w /\
  ((r = Val false /\ db w' = db w) \/
   (r = Val true /\ db w' = db w /\
    exists row, lookup k (db w) = Some row /\ status row = new) \/
   (r = Val true /\
    exists row t,
      lookup k (db w) = Some row /\ status row <> new /\
      tasks (db w') = updated k (set_status new t) (tasks (db w)) /\
      ((exists t', task_history (db w') =
                   task_history (db w) ++
                   [entry k (Some (status row)) new who t' note]) \/
       (task_history (db w') = task_history (db w) /\
        exists t', fails env InsertHistory t' = true)))).
Proof.
  unfold idle. intros I E. unfold update_task_status in E. paths E; notified.
  all: cbn in *.
  all: try (repeat split; auto; fail).
  all: try (repeat split; auto; left; split; congruence).
  - apply String.eqb_eq in D0. repeat split; auto. right; left.
    repeat split; eauto.
  - apply String.eqb_neq in D0. repeat split; auto. right; right.
    split; auto. exists t, (S (clock w)). rewrite H. cbn.
    repeat split; auto. left. eexists. reflexivity.
  - apply String.eqb_neq in D0. repeat split; auto. right; right.
    split; auto. exists t, (S (clock w)). rewrite H. cbn.
    repeat split; auto. right. split; eauto.
Qed.

(** ** Upserts *)

(** Every way [add_or_update_task] can end, from a store with no open
    transaction. *)
Lemma add_or_update_task_run env a w r w' :
  idle w ->
  add_or_update_task env a w = (r, w') ->
  idle w' /\ spawned w' = spawned w /\ executor_calls w' = executor_calls w /\
  ((r = Val false /\ db w' = db w) \/
   (r = Val true /\
    exists row t,
      lookup (arg_task_id a) (db w) = Some row /\
      status row = arg_status a /\
      tasks (db w') = updated (arg_task_id a) (updated_row a t) (tasks (db w)) /\
      task_history (db w') = task_history (db w) /\
      notify_calls w' = notify_calls w /\ posted w' = posted w) \/
   (r = Val true /\
    exists row t,
      lookup (arg_task_id a) (db w) = Some row /\
      status row <> arg_status a /\
      tasks (db w') = updated (arg_task_id a) (updated_row a t) (tasks (db w)) /\
      ((exists t', task_history (db w') =
                   task_history (db w) ++
                   [entry (arg_task_id a) (Some (status row)) (arg_status a)
                      "system" t'
                      (Some "Status zaktualizowany podczas synchronizacji")]) \/
       (task_history (db w') = task_history (db w) /\
        exists t', fails env InsertHistory t' = true)) /\
      notify_calls w' =
      notify_calls w ++
      [NotifyStatusChange (arg_task_id a) (arg_title a) (status row)
         (arg_status a)]) \/
   (r = Val true /\
    exists t,
      lookup (arg_task_id a) (db w) = None /\
      tasks (db w') = tasks (db w) ++ [new_row a t] /\
      ((exists t', task_history (db w') =
                   task_history (db w) ++
                   [entry (arg_task_id a) None (arg_status a) "system" t'
                      (Some "Zadanie utworzone")]) \/
       (task_history (db w') = task_history (db w) /\
        exists t', fails env InsertHistory t' = true)) /\
      notify_calls w' =
      notify_calls w ++
      [NotifyTaskCreated (arg_task_id a) (arg_title a) (arg_assignee a)])).
Proof.
  unfold idle. intros I E. unfold add_or_update_task in E. paths E; notified.
  all: cbn in *.
  all: try (repeat split; auto; left; split; congruence).
  - apply negb_true_iff in D0. apply String.eqb_neq in D0.
    repeat split; auto. right; right; left. split; auto.
    exists t, (S (clock w)). rewrite H. cbn.
    repeat split; auto. left. eexists. reflexivity.
  - apply negb_true_iff in D0. apply String.eqb_neq in D0.
    repeat split; auto. right; right; left. split; auto.
    exists t, (S (clock w)). rewrite H. cbn.
    repeat split; auto. right. split; eauto.
  - apply negb_false_iff in D0. apply String.eqb_eq in D0.
    repeat split; auto. right; left. split; auto.
    exists t, (S (clock w)). repeat split; auto.
  - repeat split; auto. right; right; right. split; auto.
    exists (S (clock w)). rewrite H. cbn.
    repeat split; auto. left. eexists. reflexivity.
  - repeat split; auto. right; right; right. split; auto.
    exists (S (clock w)). rewrite H. cbn.
    repeat split; auto. right. split; eauto.
Qed.

(** ** Reading a task *)

Lemma get_task_inv env k w r w' :
  get_task env k w = (r, w') ->
  unchanged w w' /\ spawned w' = spawned w /\
  executor_calls w' = executor_calls w /\
  exists o, r = Val o /\
    forall row h, o = Some (row, h) -> lookup k (db w) = Some row.
Proof.
  intro E. unfold get_task in E. paths E; cbn.
  all: repeat split; auto.
  all: eexists; split; [reflexivity|]; intros row h Q; inversion Q; subst.
  assumption.
Qed.

(** ** The executor *)

(** Whatever a status transition of task [k] preserves, the executor
    preserves: on every path it touches the store through
    [update_task_status] only. *)
Lemma execute_automated_task_preserves env k (P : DB -> Prop) :
  (forall new who note w r w',
     idle w -> P (db w) ->
     update_task_status env k new who note w = (r, w') -> P (db w')) ->
  forall w r w',
    idle w -> P (db w) ->
    execute_automated_task env k w = (r, w') ->
    idle w' /\ P (db w') /\ executor_calls w' = executor_calls w ++ [k] /\
    exists b, r = Val b.
Proof.
  intros HP w r w' I Pw E. unfold execute_automated_task in E.
  paths E.
  all: repeat match goal with
    | H : get_task _ _ _ = _ |- _ =>
        apply get_task_inv in H; destruct H as ((? & ? & ? & ?) & ? & ? & ?)
    | H : update_task_status _ _ _ _ _ ?w0 = _ |- _ =>
        let I0 := fresh "I" in
        assert (I0 : idle w0) by (unfold idle in *; cbn in *; congruence);
        let P0 := fresh "P" in
        assert (P0 : P (db w0)) by (cbn in *; congruence);
        pose proof (HP _ _ _ _ _ _ I0 P0 H);
        apply (update_task_status_run _ _ _ _ _ _ _ _ I0) in H;
        destruct H as (? & ? & ? & [(? & ?) | [(? & ? & ?) | (? & ?)]])
    end.
  all: try discriminate.
  all: repeat split; try (unfold idle in *; cbn in *; congruence); eauto.
Qed.

(** ** Runs in which no statement fails *)

Ltac no_fault FF :=
  try match goal with
  | F : fails _ _ _ = true |- _ => rewrite FF in F; discriminate F
  end.

Lemma send_to_posts env whs ev d w r w' :
  fault_free env ->
  send_to env whs ev d w = (r, w') ->
  r = Val tt /\
  posted w' =
  posted w ++
  map (fun wh => (fmt (url wh), d))
      (filter (fun wh => subscribed ev wh && truthy (url wh)) whs).
Proof.
  intro FF. revert w. induction whs as [|wh rest IH]; intros w E; cbn in E.
  - paths E. rewrite app_nil_r. auto.
  - paths E; no_fault FF.
    all: repeat match goal with
      | D : negb _ = true |- _ => apply negb_true_iff in D
      | D : negb _ = false |- _ => apply negb_false_iff in D
      end.
    all: cbn [filter]; try rewrite D; try rewrite D0; cbn [andb map].
    all: match goal with H : send_to _ _ _ _ _ = _ |- _ =>
           apply IH in H; destruct H as [? Q] end.
    all: try discriminate.
    all: split; auto.
    rewrite Q. cbn. rewrite <- app_assoc. reflexivity.
Qed.

Lemma notify_task_created_posts env k ttl who w r w' :
  fault_free env ->
  _notify_task_created env k ttl who w = (r, w') ->
  r = Val tt /\
  exists t,
    posted w' =
    posted w ++
    (if notify_assignees env
     then deliveries env "task.created" (TaskCreated k ttl who t)
     else []).
Proof.
  intros FF E. unfold _notify_task_created, _send_webhook_notifications in E.
  paths E.
  all: repeat match goal with
    | D : negb _ = true |- _ => apply negb_true_iff in D
    | D : negb _ = false |- _ => apply negb_false_iff in D
    | H : send_to _ _ _ _ _ = _ |- _ =>
        apply (send_to_posts _ _ _ _ _ _ _ FF) in H; destruct H as [? ?]
    end.
  all: try discriminate.
  all: rewrite D; split; auto.
  - exists 0. cbn. rewrite app_nil_r. reflexivity.
  - eexists. unfold deliveries. eassumption.
Qed.

Lemma notify_status_change_posts env k ttl old new w r w' :
  fault_free env ->
  _notify_status_change env k ttl old new w = (r, w') ->
  r = Val tt /\
  exists t,
    posted w' =
    posted w ++
    (if notify_assignees env
     then deliveries env "task.status_changed" (StatusChanged k ttl old new t)
     else []).
Proof.
  intros FF E. unfold _notify_status_change, _send_webhook_notifications in E.
  paths E.
  all: repeat match goal with
    | D : negb _ = true |- _ => apply negb_true_iff in D
    | D : negb _ = false |- _ => apply negb_false_iff in D
    | H : send_to _ _ _ _ _ = _ |- _ =>
        apply (send_to_posts _ _ _ _ _ _ _ FF) in H; destruct H as [? ?]
    end.
  all: try discriminate.
  all: rewrite D; split; auto.
  - exists 0. cbn. rewrite app_nil_r. reflexivity.
  - eexists. unfold deliveries. eassumption.
Qed.

Lemma find_none_existsb {A} (f : A -> bool) l :
  find f l = None -> existsb f l = false.
Proof.
  induction l as [|a l IH]; cbn; auto.
  destruct (f a); [discriminate|auto].
Qed.

Ltac notified_ok FF :=
  repeat match goal with
  | H : _notify_status_change _ _ _ _ _ _ = _ |- _ =>
      let R := fresh "R" in let t := fresh "tn" in let P := fresh "P" in
      destruct (notify_status_change_posts _ _ _ _ _ _ _ _ FF H)
        as (R & t & P);
      apply notify_status_change_inv in H;
      let A := fresh in let B := fresh in let C := fresh in
      let D := fresh in let N := fresh in
      destruct H as ((A & B & C & D) & N)
  | H : _notify_task_created _ _ _ _ _ = _ |- _ =>
      let R := fresh "R" in let t := fresh "tn" in let P := fresh "P" in
      destruct (notify_task_created_posts _ _ _ _ _ _ _ FF H)
        as (R & t & P);
      apply notify_task_created_inv in H;
      let A := fresh in let B := fresh in let C := fresh in
      let D := fresh in let N := fresh in
      destruct H as ((A & B & C & D) & N)
  end.

(** What an upsert does when no statement fails. *)
Lemma add_or_update_task_ok env a w r w' :
  fault_free env ->
  add_or_update_task env a w = (r, w') ->
  r = Val true /\ committed w' = db w' /\
  match lookup (arg_task_id a) (db w) with
  | None =>
      exists t t' tn,
        tasks (db w') = tasks (db w) ++ [new_row a t] /\
        task_history (db w') =
        task_history (db w) ++
        [entry (arg_task_id a) None (arg_status a) "system" t'
           (Some "Zadanie utworzone")] /\
        notify_calls w' =
        notify_calls w ++
        [NotifyTaskCreated (arg_task_id a) (arg_title a) (arg_assignee a)] /\
        posted w' =
        posted w ++
        (if notify_assignees env
         then deliveries env "task.created"
                (TaskCreated (arg_task_id a) (arg_title a) (arg_assignee a) tn)
         else [])
  | Some row =>
      exists t,
        tasks (db w') =
        updated (arg_task_id a) (updated_row a t) (tasks (db w)) /\
        (status row = arg_status a ->
         task_history (db w') = task_history (db w) /\
         notify_calls w' = notify_calls w /\ posted w' = posted w) /\
        (status row <> arg_status a ->
         exists t' tn,
           task_history (db w') =
           task_history (db w) ++
           [entry (arg_task_id a) (Some (status row)) (arg_status a) "system"
              t' (Some "Status zaktualizowany podczas synchronizacji")] /\
           notify_calls w' =
           notify_calls w ++
           [NotifyStatusChange (arg_task_id a) (arg_title a) (status row)
              (arg_status a)] /\
           posted w' =
           posted w ++
           (if notify_assignees env
            then deliveries env "task.status_changed"
                   (StatusChanged (arg_task_id a) (arg_title a) (status row)
                      (arg_status a) tn)
            else []))
  end.
Proof.
  intros FF E. unfold add_or_update_task in E. unfold lookup.
  paths E; no_fault FF; notified_ok FF; try discriminate.
  all: repeat match goal with
    | D : negb _ = true |- _ => apply negb_true_iff in D
    | D : negb _ = false |- _ => apply negb_false_iff in D
    end.
  all: cbn in *.
  - apply String.eqb_neq in D0. split; auto. split; auto.
    exists (S (clock w)). rewrite H. cbn.
    split; [reflexivity|]. split; [intro; contradiction|].
    intros _. eexists. exists tn. split; [reflexivity|]. split; assumption.
  - apply String.eqb_eq in D0. split; auto. split; auto.
    exists (S (clock w)).
    split; [reflexivity|]. split; [auto|]. intro; contradiction.
  - split; auto. split; auto.
    exists (S (clock w)). eexists. exists tn. rewrite H. cbn.
    split; [reflexivity|]. split; [reflexivity|]. split; assumption.
  - apply find_none_existsb in D. congruence.
Qed.

(** What a status transition does when no statement fails. *)
Lemma update_task_status_sets env k new who note w r w' row :
  fault_free env ->
  lookup k (db w) = Some row ->
  update_task_status env k new who note w = (r, w') ->
  r = Val true /\ spawned w' = spawned w /\
  (exists row', lookup k (db w') = Some row' /\ status row' = new) /\
  (status row <> new ->
   exists t, task_history (db w') =
             task_history (db w) ++ [entry k (Some (status row)) new who t note]).
Proof.
  intros FF L E. unfold update_task_status in E. unfold lookup in *.
  paths E; no_fault FF; notified_ok FF; try discriminate; try congruence.
  all: cbn in *; inversion L; subst.
  - apply String.eqb_eq in D0.
    repeat split; eauto. intro; contradiction.
  - repeat split; auto.
    + rewrite H. cbn.
      fold (updated k (set_status new (S (clock w))) (tasks (db w))).
      rewrite find_updated_same, D; auto. cbn. eauto.
    + intros _. rewrite H. cbn. eexists. reflexivity.
Qed.

Lemma get_task_ok env k w r w' row :
  fault_free env ->
  lookup k (db w) = Some row ->
  get_task env k w = (r, w') ->
  (exists h, r = Val (Some (row, h))) /\ db w' = db w /\
  spawned w' = spawned w.
Proof.
  intros FF L E. unfold get_task in E. unfold lookup in *.
  paths E; no_fault FF; try congruence.
  inversion L; subst. cbn. eauto.
Qed.

(** * The claims *)

(** ** Transitions that change nothing *)

(** C9: [update_task_status] with the status the task already has returns
    true and changes nothing: the store (rows, [updated_at] included, and
    history) and both notification traces are as before; with an id that is
    not in the store it returns false and changes nothing either.  The
    store has no open transaction, and in the first case the [SELECT] of the
    call does not fail. *)
Theorem update_task_status_noop env k new who note w :
  idle w ->
  (lookup k (db w) = None ->
   returned (update_task_status env k new who note w) = Val false /\
   unchanged w (after (update_task_status env k new who note w))) /\
  (forall row,
     fails env SelectTask (clock w) = false ->
     lookup k (db w) = Some row -> status row = new ->
     returned (update_task_status env k new who note w) = Val true /\
     unchanged w (after (update_task_status env k new who note w))).
Proof.
  unfold idle, lookup, unchanged. intro I. split.
  - intro L.
    destruct (update_task_status env k new who note w) as [r w'] eqn:E.
    unfold update_task_status in E. paths E; cbn in *.
    all: try congruence.
    all: repeat split; auto.
  - intros row F L S.
    destruct (update_task_status env k new who note w) as [r w'] eqn:E.
    unfold update_task_status in E. paths E.
    all: try congruence.
    all: try (inversion L; subst;
              rewrite String.eqb_refl in D0; discriminate).
    cbn. repeat split; auto.
Qed.

Lemma update_task_status_noop_witness :
  (returned (update_task_status Scenario.quiet "T9" "completed" "alice" None
               Scenario.synced) = Val false /\
   unchanged Scenario.synced
     (after (update_task_status Scenario.quiet "T9" "completed" "alice" None
               Scenario.synced))) /\
  (returned (update_task_status Scenario.quiet "T1" "pending" "alice" None
               Scenario.synced) = Val true /\
   unchanged Scenario.synced
     (after (update_task_status Scenario.quiet "T1" "pending" "alice" None
               Scenario.synced))).
Proof.
  split.
  - apply (update_task_status_noop Scenario.quiet "T9" "completed" "alice"
             None Scenario.synced); vm_compute; reflexivity.
  - refine (proj2 (update_task_status_noop Scenario.quiet "T1" "pending"
                     "alice" None Scenario.synced _) _ _ _ _);
      vm_compute; reflexivity.
Defined.

(** ** Where the status is validated *)

(** Counterexample to C5 as stated: [update_task_status] takes a status
    outside the five values, returns true and stores it. *)
Lemma update_task_status_accepts_any_status :
  ~ In "archived" valid_statuses /\
  returned (update_task_status Scenario.quiet "T1" "archived" "user" None
              Scenario.synced) = Val true /\
  option_map status
    (lookup "T1"
       (committed (after (update_task_status Scenario.quiet "T1" "archived"
                            "user" None Scenario.synced))))
  = Some "archived".
Proof.
  split.
  - cbn. intros [H|[H|[H|[H|[H|[]]]]]]; discriminate H.
  - vm_compute. split; reflexivity.
Qed.

(** C5, amended: the check against the five statuses is made by the command
    [task_update] of the front end, not by [update_task_status]: for a
    status outside the five values the command returns without calling the
    manager, so nothing at all changes (and no error value is produced). *)
Theorem task_update_rejects_unknown_status env k st note w :
  ~ In st valid_statuses ->
  task_update env k st note w = (Val tt, w).
Proof.
  intro H. unfold task_update.
  destruct (existsb (String.eqb st) valid_statuses) eqn:E.
  - apply existsb_exists in E. destruct E as (x & I & Q).
    apply String.eqb_eq in Q. subst x. contradiction.
  - reflexivity.
Qed.

Lemma task_update_rejects_unknown_status_witness :
  task_update Scenario.quiet "T1" "archived" None Scenario.synced
  = (Val tt, Scenario.synced).
Proof.
  apply (task_update_rejects_unknown_status Scenario.quiet "T1" "archived"
           None Scenario.synced).
  cbn. intros [H|[H|[H|[H|[H|[]]]]]]; discriminate H.
Defined.

(** ** A failing history insert *)

(** C2, at a failing input: the review task exists with status [pending];
    it is upserted with status [completed] while the insert into
    [task_history] raises.  The call returns true and commits the new row,
    and no history entry was written for the change.  The same on the
    insert path: in the empty store the task is created and committed with
    no history entry at all. *)
Theorem upsert_commits_without_history :
  (let r := add_or_update_task Scenario.history_fails
              (manual_fields Scenario.review_done) Scenario.synced in
   returned r = Val true /\
   option_map status (lookup "T1" (committed (after r))) = Some "completed" /\
   task_history (committed (after r))
   = task_history (committed Scenario.synced)) /\
  (let r := add_or_update_task Scenario.history_fails
              (manual_fields Scenario.review) Scenario.empty in
   returned r = Val true /\
   option_map status (lookup "T1" (committed (after r))) = Some "pending" /\
   task_history (committed (after r)) = []).
Proof.
  vm_compute. repeat split; reflexivity.
Qed.

(** C1, at a failing input: the same failure during a status transition.
    The store is consistent before the call; after it the task is
    [completed] while its latest history entry still says [pending]. *)
Theorem transition_breaks_consistency :
  let r := update_task_status Scenario.history_fails "T1" "completed" "alice"
             None Scenario.synced in
  latest_status (db Scenario.synced) "T1" = Some "pending" /\
  option_map status (lookup "T1" (db Scenario.synced)) = Some "pending" /\
  returned r = Val true /\
  option_map status (lookup "T1" (committed (after r))) = Some "completed" /\
  latest_status (committed (after r)) "T1" = Some "pending".
Proof.
  vm_compute. repeat split; reflexivity.
Qed.

(** ** The type column *)

Lemma update_task_status_keeps_types env k new who note w r w' :
  idle w ->
  update_task_status env k new who note w = (r, w') ->
  map type (tasks (db w')) = map type (tasks (db w)).
Proof.
  intros I E. apply (update_task_status_run _ _ _ _ _ _ _ _ I) in E.
  destruct E as (_ & _ & _ & [(_ & Q) | [(_ & Q & _) | (_ & row & t & _ & _ & Q & _)]]).
  - now rewrite Q.
  - now rewrite Q.
  - rewrite Q. apply updated_types.
Qed.

(** Counterexample to C7 as stated: the review task was created as
    [manual]; an upsert of the same id as an automated task succeeds and
    the stored type becomes [automated]. *)
Lemma upsert_rewrites_type :
  option_map type (lookup "T1" (db Scenario.synced)) = Some "manual" /\
  returned (add_or_update_task Scenario.quiet
              (automated_fields Scenario.review) Scenario.synced) = Val true /\
  option_map type
    (lookup "T1"
       (db (after (add_or_update_task Scenario.quiet
                     (automated_fields Scenario.review) Scenario.synced))))
  = Some "automated".
Proof.
  vm_compute. repeat split; reflexivity.
Qed.

(** C7, amended: status transitions and executions never change the type
    of any task; an upsert leaves the type of every other task alone and,
    when it succeeds, stores the supplied [task_type] as the type of the
    task it names, whatever type that task was created with. *)
Theorem type_written_by_upsert_only env w :
  idle w ->
  (forall k new who note,
     map type (tasks (db (after (update_task_status env k new who note w))))
     = map type (tasks (db w))) /\
  (forall k,
     map type (tasks (db (after (execute_automated_task env k w))))
     = map type (tasks (db w))) /\
  (forall a j,
     j <> arg_task_id a ->
     option_map type (lookup j (db (after (add_or_update_task env a w))))
     = option_map type (lookup j (db w))) /\
  (forall a row,
     returned (add_or_update_task env a w) = Val true ->
     lookup (arg_task_id a) (db (after (add_or_update_task env a w)))
     = Some row ->
     type row = arg_task_type a).
Proof.
  intro I. repeat split.
  - intros k new who note.
    destruct (update_task_status env k new who note w) as [r w'] eqn:E.
    eapply update_task_status_keeps_types; eauto.
  - intro k.
    destruct (execute_automated_task env k w) as [r w'] eqn:E. cbn.
    eapply (execute_automated_task_preserves env k
              (fun d => map type (tasks d) = map type (tasks (db w)))) in E;
      auto.
    + tauto.
    + intros new who note w0 r0 w0' I0 P0 E0.
      rewrite <- P0. eapply update_task_status_keeps_types; eauto.
  - intros a j N.
    destruct (add_or_update_task env a w) as [r w'] eqn:E. cbn.
    apply (add_or_update_task_run _ _ _ _ _ I) in E.
    destruct E as (_ & _ & _ &
      [(_ & Q) | [(_ & row & t & _ & _ & Q & _) |
                  [(_ & row & t & _ & _ & Q & _) | (_ & t & _ & Q & _)]]]).
    + now rewrite Q.
    + unfold lookup. rewrite Q, find_updated_other; auto.
    + unfold lookup. rewrite Q, find_updated_other; auto.
    + unfold lookup. rewrite Q, find_app_other; auto.
  - intros a row.
    destruct (add_or_update_task env a w) as [r w'] eqn:E. cbn.
    intros R L.
    apply (add_or_update_task_run _ _ _ _ _ I) in E.
    destruct E as (_ & _ & _ &
      [(F & _) | [(_ & row0 & t & L0 & _ & Q & _) |
                  [(_ & row0 & t & L0 & _ & Q & _) | (_ & t & L0 & Q & _)]]]).
    + congruence.
    + unfold lookup in *. rewrite Q, find_updated_same, L0 in L; auto.
      inversion L; subst. reflexivity.
    + unfold lookup in *. rewrite Q, find_updated_same, L0 in L; auto.
      inversion L; subst. reflexivity.
    + unfold lookup in *. rewrite Q, (find_app_new _ _ _ L0) in L; auto.
      inversion L; subst. reflexivity.
Qed.

Lemma type_written_by_upsert_only_witness :
  map type
    (tasks (db (after (update_task_status Scenario.quiet "T1" "completed"
                         "alice" None Scenario.synced))))
  = map type (tasks (db Scenario.synced)).
Proof.
  apply (type_written_by_upsert_only Scenario.quiet Scenario.synced).
  vm_compute. reflexivity.
Defined.

(** ** The scheduler's scan *)

Lemma list_tasks_inv env st ty who prio tgs w r w' :
  list_tasks env st ty who prio tgs w = (r, w') ->
  unchanged w w' /\ spawned w' = spawned w /\
  executor_calls w' = executor_calls w /\
  (r = Val [] \/
   r = Val (filter (selected st ty who prio tgs) (tasks (db w)))).
Proof.
  intro E. unfold list_tasks in E. paths E; cbn; repeat split; auto.
Qed.

Lemma selected_automated r :
  selected None (Some "automated") None None [] r = true ->
  type r = "automated".
Proof.
  unfold selected, keeps, keeps_nullable. cbn.
  rewrite !andb_true_r. apply String.eqb_eq.
Qed.

Lemma due_inv t :
  due t = true -> status t = "pending" /\ truthy (schedule t) = true.
Proof.
  unfold due. intro H. apply andb_true_iff in H. destruct H as [S T].
  apply String.eqb_eq in S. auto.
Qed.

(** The scan hands to the executor the due tasks of its list, in order, and
    nothing else. *)
Lemma scan_calls env l :
  forall w r w',
    idle w -> scan env l w = (r, w') ->
    idle w' /\ executor_calls w' = executor_calls w ++ map id (filter due l).
Proof.
  induction l as [|t l IH]; intros w r w' I E; cbn in E.
  - paths E. rewrite app_nil_r. auto.
  - paths E.
    all: repeat match goal with
      | H : execute_automated_task _ _ ?w0 = _ |- _ =>
          apply (execute_automated_task_preserves _ _ (fun _ => True)) in H;
          [destruct H as (? & _ & ? & ? & ?) | auto | assumption | trivial]
      end.
    all: try discriminate.
    all: cbn [filter]; unfold due at 1.
    all: repeat match goal with
      | D : negb _ = true |- _ => apply negb_true_iff in D
      | D : negb _ = false |- _ => apply negb_false_iff in D
      end.
    all: try rewrite D; try rewrite D0; cbn [andb map].
    all: match goal with
      | H : scan _ _ ?w0 = _ |- _ =>
          apply IH in H; [destruct H as (? & Q) | assumption]
      end.
    all: split; [assumption|].
    + exact Q.
    + rewrite Q. match goal with H : executor_calls _ = _ |- _ => rewrite H end.
      rewrite <- app_assoc. reflexivity.
    + exact Q.
Qed.

Lemma unique_row l a b :
  NoDup (map id l) -> In a l -> In b l -> id a = id b -> a = b.
Proof.
  induction l as [|x l IH]; cbn; intros N A B Q; [contradiction|].
  inversion N as [|? ? X N']; subst.
  destruct A as [A|A], B as [B|B]; subst; auto.
  - exfalso. apply X. rewrite Q. now apply in_map.
  - exfalso. apply X. rewrite <- Q. now apply in_map.
Qed.

(** C10: in a scan, the executor is invoked only for tasks that the store
    holds, at the start of the scan, as automated, pending and with a
    non-empty schedule; a task whose schedule is empty or missing is not
    among the invocations.  ([calls] is what the scan adds to the trace of
    executor invocations.) *)
Theorem scan_triggers_scheduled_pending_only env w :
  idle w -> unique_ids (db w) ->
  exists calls,
    executor_calls (after (check_and_execute_scheduled_tasks env w))
    = executor_calls w ++ calls /\
    (forall k, In k calls ->
       exists row,
         In row (tasks (db w)) /\ id row = k /\
         type row = "automated" /\ status row = "pending" /\
         truthy (schedule row) = true) /\
    (forall row, In row (tasks (db w)) ->
       truthy (schedule row) = false -> ~ In (id row) calls).
Proof.
  intros I U.
  destruct (check_and_execute_scheduled_tasks env w) as [r w'] eqn:E.
  unfold check_and_execute_scheduled_tasks in E. paths E.
  all: match goal with H : list_tasks _ _ _ _ _ _ _ = _ |- _ =>
         rename H into E0 end.
  - match goal with H : scan _ _ _ = _ |- _ => rename H into ES end.
    apply list_tasks_inv in E0.
    destruct E0 as ((D & C & _) & _ & X & L).
    apply scan_calls in ES.
    2: { unfold idle in *. cbn. congruence. }
    destruct ES as (_ & Q). cbn in Q. rewrite X in Q.
    exists (map id (filter due a)). split; [exact Q|].
    assert (A : forall t, In t (filter due a) ->
                In t (tasks (db w)) /\ type t = "automated" /\
                status t = "pending" /\ truthy (schedule t) = true).
    { intros t T. apply filter_In in T. destruct T as [T Du].
      apply due_inv in Du.
      destruct L as [L|L]; inversion L; subst; [contradiction|].
      apply filter_In in T. destruct T as [T S].
      apply selected_automated in S. tauto. }
    split.
    + intros k K. apply in_map_iff in K. destruct K as (t & <- & T).
      exists t. apply A in T. tauto.
    + intros row R S K. apply in_map_iff in K. destruct K as (t & Q' & T).
      apply A in T. destruct T as (T & _ & _ & S').
      assert (t = row) by (eapply unique_row; eauto). subst.
      congruence.
  - apply list_tasks_inv in E0.
    destruct E0 as (_ & _ & _ & [L|L]); discriminate L.
Qed.

Lemma scan_triggers_scheduled_pending_only_witness :
  exists calls,
    executor_calls
      (after (check_and_execute_scheduled_tasks Scenario.quiet Scenario.synced))
    = executor_calls Scenario.synced ++ calls /\
    (forall k, In k calls ->
       exists row,
         In row (tasks (db Scenario.synced)) /\ id row = k /\
         type row = "automated" /\ status row = "pending" /\
         truthy (schedule row) = true) /\
    (forall row, In row (tasks (db Scenario.synced)) ->
       truthy (schedule row) = false -> ~ In (id row) calls).
Proof.
  apply (scan_triggers_scheduled_pending_only Scenario.quiet Scenario.synced).
  - vm_compute. reflexivity.
  - unfold unique_ids. vm_compute.
    repeat constructor; cbn; intuition discriminate.
Defined.

(** ** Terminal statuses *)

Lemma update_task_status_keeps_others env k new who note w r w' row :
  id row <> k -> idle w -> In row (tasks (db w)) ->
  update_task_status env k new who note w = (r, w') ->
  In row (tasks (db w')).
Proof.
  intros N I R E. apply (update_task_status_run _ _ _ _ _ _ _ _ I) in E.
  destruct E as (_ & _ & _ &
    [(_ & Q) | [(_ & Q & _) | (_ & row0 & t & _ & _ & Q & _)]]).
  - now rewrite Q.
  - now rewrite Q.
  - rewrite Q. now apply updated_keeps_others.
Qed.

(** A scan leaves alone every row whose id is not the id of a due task of
    its list. *)
Lemma scan_keeps env row l :
  forall w r w',
    idle w -> In row (tasks (db w)) ->
    (forall t, In t l -> due t = true -> id t <> id row) ->
    scan env l w = (r, w') ->
    idle w' /\ In row (tasks (db w')).
Proof.
  induction l as [|t l IH]; intros w r w' I R N E; cbn in E.
  - paths E. auto.
  - assert (N' : forall t0, In t0 l -> due t0 = true -> id t0 <> id row).
    { intros t0 T. apply N. now right. }
    paths E.
    all: repeat match goal with
      | D : negb _ = true |- _ => apply negb_true_iff in D
      | D : negb _ = false |- _ => apply negb_false_iff in D
      end.
    all: repeat match goal with
      | H : execute_automated_task _ _ ?w0 = _ |- _ =>
          apply (execute_automated_task_preserves _ _
                   (fun d => In row (tasks d))) in H;
          [destruct H as (? & ? & ? & ? & ?)
          | intros; eapply update_task_status_keeps_others; eauto;
            apply not_eq_sym; apply N; [now left|];
            unfold due; rewrite D, D0; reflexivity
          | assumption | assumption]
      end.
    all: try discriminate.
    all: match goal with
      | H : scan _ _ ?w0 = _ |- _ => eapply IH in H; eauto
      end.
Qed.

(** Counterexample to C6 as stated: the job is completed.  A
    synchronisation with the unchanged manifest puts it back to [pending],
    and an execution moves it from [completed] to [in_progress] before it
    ends; no caller asked for a status change. *)
Lemma completed_is_left_by_sync_and_execute :
  option_map status (lookup "J1" (db Scenario.ran)) = Some "completed" /\
  option_map status
    (lookup "J1"
       (db (after (sync_tasks_from_config Scenario.quiet Scenario.manifest
                     Scenario.ran))))
  = Some "pending" /\
  exists t note,
    In (entry "J1" (Some "completed") "in_progress" "system" t note)
       (task_history
          (db (after (execute_automated_task Scenario.quiet "J1"
                        Scenario.ran)))).
Proof.
  split; [vm_compute; reflexivity|].
  split; [vm_compute; reflexivity|].
  eexists. eexists. vm_compute. do 4 right. left. reflexivity.
Qed.

(** C6, amended: only the scheduler treats [completed] and [failed] as
    final: a scan leaves the row of every task that is completed or failed
    when the scan starts exactly as it is.  The executor starts any
    automated task, whatever its status, and an upsert writes the status it
    is given. *)
Theorem scan_leaves_terminal_tasks env w row :
  idle w -> unique_ids (db w) ->
  In row (tasks (db w)) ->
  status row = TaskStatus.COMPLETED \/ status row = TaskStatus.FAILED ->
  In row (tasks (db (after (check_and_execute_scheduled_tasks env w)))).
Proof.
  intros I U R S.
  destruct (check_and_execute_scheduled_tasks env w) as [r w'] eqn:E.
  unfold check_and_execute_scheduled_tasks in E. paths E.
  all: match goal with H : list_tasks _ _ _ _ _ _ _ = _ |- _ =>
         rename H into E0 end.
  - match goal with H : scan _ _ _ = _ |- _ => rename H into ES end.
    apply list_tasks_inv in E0.
    destruct E0 as ((D & C & _) & _ & X & L).
    eapply (scan_keeps env row) in ES.
    + cbn. tauto.
    + unfold idle in *. cbn. congruence.
    + cbn. congruence.
    + intros t T Du Q. apply due_inv in Du. destruct Du as [P _].
      destruct L as [L|L]; inversion L; subst; [contradiction|].
      apply filter_In in T. destruct T as [T _].
      assert (t = row) by (eapply unique_row; eauto). subst.
      destruct S as [S|S]; rewrite S in P; discriminate P.
  - apply list_tasks_inv in E0.
    destruct E0 as (_ & _ & _ & [L|L]); discriminate L.
Qed.

Lemma scan_leaves_terminal_tasks_witness :
  match lookup "J1" (db Scenario.ran) with
  | Some row =>
      In row
        (tasks (db (after (check_and_execute_scheduled_tasks Scenario.quiet
                             Scenario.ran))))
  | None => False
  end.
Proof.
  destruct (lookup "J1" (db Scenario.ran)) as [row|] eqn:L.
  - apply (scan_leaves_terminal_tasks Scenario.quiet Scenario.ran row).
    + vm_compute. reflexivity.
    + unfold unique_ids. vm_compute.
      repeat constructor; cbn; intuition discriminate.
    + vm_compute in L. inversion L; subst. vm_compute. auto.
    + vm_compute in L. inversion L; subst. left. reflexivity.
  - vm_compute in L. discriminate L.
Defined.

(** ** Upsert semantics *)



(** ** The executor's mapping of outcomes *)

(** Walks an execution forward: the task is read, then each status
    transition finds the row the previous one left. *)
Ltac forward FF :=
  repeat match goal with
  | H : get_task _ ?k ?w0 = _, L : lookup ?k _ = Some ?row |- _ =>
      let L0 := fresh "L" in
      assert (L0 : lookup k (db w0) = Some row) by (cbn in *; congruence);
      let h := fresh "h" in let Q := fresh "Q" in
      let A := fresh "A" in let B := fresh "B" in
      destruct (get_task_ok _ _ _ _ _ _ FF L0 H) as ((h & Q) & A & B);
      clear H L0; tidy
  | H : update_task_status _ ?k _ _ _ ?w0 = _, L : lookup ?k _ = Some ?row |- _ =>
      let L0 := fresh "L" in
      assert (L0 : lookup k (db w0) = Some row) by (cbn in *; congruence);
      let row' := fresh "row" in let Q := fresh "Q" in
      let A := fresh "A" in let B := fresh "B" in
      let L1 := fresh "L" in let S := fresh "S" in
      destruct (update_task_status_sets _ _ _ _ _ _ _ _ _ FF L0 H)
        as (Q & A & (row' & L1 & S) & B);
      clear H L0; tidy
  end.

(** Drops the paths that contradict what is known of the task and of the
    environment. *)
Ltac prune :=
  repeat match goal with
  | D : negb _ = true |- _ => apply negb_true_iff in D
  | D : negb _ = false |- _ => apply negb_false_iff in D
  | D : String.eqb _ _ = false |- _ => apply String.eqb_neq in D
  | D : String.eqb _ _ = true |- _ => apply String.eqb_eq in D
  end;
  try congruence;
  try match goal with
  | D : path_exists ?e _ ?p = _, M : forall t, path_exists ?e t ?p = _ |- _ =>
      rewrite M in D; discriminate D
  end;
  try match goal with
  | D : popen ?e _ ?c = _, M : forall t, popen ?e t ?c = _ |- _ =>
      rewrite M in D; inversion D; subst
  end;
  try match goal with
  | D : Nat.eqb _ _ = _ |- _ => cbn in D; discriminate D
  end;
  try discriminate.

(** Concludes from the last transition of a walk. *)
Ltac finish :=
  split; [reflexivity|];
  split; [cbn [spawned with_executor_calls with_spawned] in *; congruence|];
  unfold ended;
  match goal with
  | L : lookup _ (db ?x) = Some ?r, S : status ?r = _,
    S0 : status ?r0 = TaskStatus.IN_PROGRESS,
    B : status ?r0 <> _ -> exists t, task_history (db ?x) = _
    |- context [db ?x] =>
      split;
      [rewrite L; cbn [option_map]; rewrite S; reflexivity|];
      rewrite S0 in B;
      let t := fresh "t" in
      destruct B as [t B]; [discriminate|];
      eexists; exists t; exact B
  end.

Lemma execute_missing_script env k w row :
  fault_free env ->
  lookup k (db w) = Some row -> type row = "automated" ->
  truthy (script row) = false \/
  (forall t, path_exists env t (fmt (script row)) = false) ->
  returned (execute_automated_task env k w) = Val false /\
  spawned (after (execute_automated_task env k w)) = spawned w /\
  ended k TaskStatus.FAILED
    (Some ("Nie znaleziono skryptu " ++ fmt (script row))%string)
    (db (after (execute_automated_task env k w))).
Proof.
  intros FF L Ty Mi.
  destruct (execute_automated_task env k w) as [r w'] eqn:E.
  unfold returned, after; cbn [fst snd].
  unfold execute_automated_task in E.
  destruct Mi as [Mi|Mi]; paths E; no_fault FF; forward FF; prune.
  all: finish.
Qed.

Lemma execute_exit_zero env k w row out err :
  fault_free env ->
  lookup k (db w) = Some row -> type row = "automated" ->
  truthy (script row) = true ->
  (forall t, path_exists env t (fmt (script row)) = true) ->
  (forall t, popen env t (command (fmt (script row)) (parameters row))
             = Exited 0 out err) ->
  returned (execute_automated_task env k w) = Val true /\
  spawned (after (execute_automated_task env k w))
  = spawned w ++ [command (fmt (script row)) (parameters row)] /\
  ended k TaskStatus.COMPLETED
    (Some ("Zadanie wykonane pomyślnie: " ++ prefix 200 out)%string)
    (db (after (execute_automated_task env k w))).
Proof.
  intros FF L Ty Sc Ex Po.
  destruct (execute_automated_task env k w) as [r w'] eqn:E.
  unfold returned, after; cbn [fst snd].
  unfold execute_automated_task in E.
  paths E; no_fault FF; forward FF; prune.
  all: finish.
Qed.

Lemma execute_exit_nonzero env k w row code out err :
  fault_free env ->
  lookup k (db w) = Some row -> type row = "automated" ->
  truthy (script row) = true ->
  (forall t, path_exists env t (fmt (script row)) = true) ->
  (forall t, popen env t (command (fmt (script row)) (parameters row))
             = Exited (S code) out err) ->
  returned (execute_automated_task env k w) = Val false /\
  spawned (after (execute_automated_task env k w))
  = spawned w ++ [command (fmt (script row)) (parameters row)] /\
  ended k TaskStatus.FAILED
    (Some ("Błąd: " ++ prefix 200 err)%string)
    (db (after (execute_automated_task env k w))).
Proof.
  intros FF L Ty Sc Ex Po.
  destruct (execute_automated_task env k w) as [r w'] eqn:E.
  unfold returned, after; cbn [fst snd].
  unfold execute_automated_task in E.
  paths E; no_fault FF; forward FF; prune.
  all: finish.
Qed.

Lemma execute_spawn_error env k w row message :
  fault_free env ->
  lookup k (db w) = Some row -> type row = "automated" ->
  truthy (script row) = true ->
  (forall t, path_exists env t (fmt (script row)) = true) ->
  (forall t, popen env t (command (fmt (script row)) (parameters row))
             = SpawnError message) ->
  returned (execute_automated_task env k w) = Val false /\
  spawned (after (execute_automated_task env k w))
  = spawned w ++ [command (fmt (script row)) (parameters row)] /\
  ended k TaskStatus.FAILED
    (Some ("Wyjątek: " ++ message)%string)
    (db (after (execute_automated_task env k w))).
Proof.
  intros FF L Ty Sc Ex Po.
  destruct (execute_automated_task env k w) as [r w'] eqn:E.
  unfold returned, after; cbn [fst snd].
  unfold execute_automated_task in E.
  paths E; no_fault FF; forward FF; prune.
  all: finish.
Qed.

(** [prefix n s] is [s[:n]]: it is the beginning of [s], it stops where a
    code point starts, and it holds [n] code points, or all of them when [s]
    has fewer. *)
Lemma prefix_spec n s :
  exists rest,
    s = (prefix n s ++ rest)%string /\
    code_points (prefix n s) = Nat.min n (code_points s) /\
    match rest with
    | EmptyString => True
    | String c _ => continues c = false
    end.
Proof.
  revert n. induction s as [|c s IH]; intro n; cbn.
  - exists EmptyString. rewrite Nat.min_0_r. auto.
  - destruct (continues c) eqn:C.
    + destruct (IH n) as (rest & E & N & B). exists rest. cbn.
      rewrite C. split; [now rewrite <- E | auto].
    + destruct n as [|m].
      * exists (String c s). cbn. auto.
      * destruct (IH m) as (rest & E & N & B). exists rest. cbn.
        rewrite C. split; [now rewrite <- E | split; [now rewrite N | auto]].
Qed.

(** The cut counts characters, not bytes. *)
Lemma prefix_counts_characters :
  String.length "żółw" = 7 /\ code_points "żółw" = 4 /\
  prefix 2 "żółw" = "żó" /\ prefix 200 "żółw" = "żółw".
Proof. repeat split. Qed.

(** Counterexample to C3 as stated: the job's script exits with code 0 and
    prints [ok]; the task is completed and the call returns true, but the
    comment of the transition is not the first 200 characters of the
    output: it is that text behind a fixed prefix. *)
Lemma comment_is_not_the_bare_output :
  popen Scenario.quiet 0 "bash job.sh" = Exited 0 "ok" "" /\
  returned (execute_automated_task Scenario.quiet "J1" Scenario.synced)
  = Val true /\
  option_map comment (latest_entry "J1" (task_history (db Scenario.ran)))
  = Some (Some "Zadanie wykonane pomyślnie: ok") /\
  option_map comment (latest_entry "J1" (task_history (db Scenario.ran)))
  <> Some (Some (prefix 200 "ok")).
Proof.
  split; [reflexivity|].
  split; [vm_compute; reflexivity|].
  split; [vm_compute; reflexivity|].
  vm_compute. discriminate.
Qed.

(** C3, amended: when no statement on the connection fails and no
    notification raises while it expands the headers of a webhook
    ([fault_free]), an execution of an automated task ends as follows.  If the script path is missing or does not exist, the
    task is failed, nothing is spawned and the call returns false; the
    comment names the path.  Otherwise the command is spawned once and: on
    exit code 0 the task is completed, with the comment ["Zadanie wykonane
    pomyślnie: "] followed by the first 200 characters of stdout, and the
    call returns true; on another exit code it is failed, with ["Błąd: "]
    followed by the first 200 characters of stderr, and the call returns
    false; when spawning or communicating raises, it is failed, with
    ["Wyjątek: "] followed by the text of the exception, and the call
    returns false. *)
Theorem executor_maps_outcome env k w row :
  fault_free env ->
  lookup k (db w) = Some row -> type row = "automated" ->
  (truthy (script row) = false \/
   (forall t, path_exists env t (fmt (script row)) = false) ->
   returned (execute_automated_task env k w) = Val false /\
   spawned (after (execute_automated_task env k w)) = spawned w /\
   ended k TaskStatus.FAILED
     (Some ("Nie znaleziono skryptu " ++ fmt (script row))%string)
     (db (after (execute_automated_task env k w)))) /\
  (truthy (script row) = true ->
   (forall t, path_exists env t (fmt (script row)) = true) ->
   (forall out err,
      (forall t, popen env t (command (fmt (script row)) (parameters row))
                 = Exited 0 out err) ->
      returned (execute_automated_task env k w) = Val true /\
      spawned (after (execute_automated_task env k w))
      = spawned w ++ [command (fmt (script row)) (parameters row)] /\
      ended k TaskStatus.COMPLETED
        (Some ("Zadanie wykonane pomyślnie: " ++ prefix 200 out)%string)
        (db (after (execute_automated_task env k w)))) /\
   (forall code out err,
      (forall t, popen env t (command (fmt (script row)) (parameters row))
                 = Exited (S code) out err) ->
      returned (execute_automated_task env k w) = Val false /\
      spawned (after (execute_automated_task env k w))
      = spawned w ++ [command (fmt (script row)) (parameters row)] /\
      ended k TaskStatus.FAILED
        (Some ("Błąd: " ++ prefix 200 err)%string)
        (db (after (execute_automated_task env k w)))) /\
   (forall message,
      (forall t, popen env t (command (fmt (script row)) (parameters row))
                 = SpawnError message) ->
      returned (execute_automated_task env k w) = Val false /\
      spawned (after (execute_automated_task env k w))
      = spawned w ++ [command (fmt (script row)) (parameters row)] /\
      ended k TaskStatus.FAILED
        (Some ("Wyjątek: " ++ message)%string)
        (db (after (execute_automated_task env k w))))).
Proof.
  intros FF L Ty. split.
  - now apply execute_missing_script.
  - intros Sc Ex. split; [|split].
    + intros out err Po. now apply (execute_exit_zero env k w row out err).
    + intros code out err Po.
      now apply (execute_exit_nonzero env k w row code out err).
    + intros message Po. now apply execute_spawn_error.
Qed.

Lemma executor_maps_outcome_witness :
  returned (execute_automated_task Scenario.quiet "J1" Scenario.synced)
  = Val true /\
  spawned (after (execute_automated_task Scenario.quiet "J1" Scenario.synced))
  = spawned Scenario.synced ++ ["bash job.sh"] /\
  ended "J1" TaskStatus.COMPLETED
    (Some ("Zadanie wykonane pomyślnie: " ++ prefix 200 "ok")%string)
    (db (after (execute_automated_task Scenario.quiet "J1" Scenario.synced))).
Proof.
  assert (L : lookup "J1" (db Scenario.synced)
              = Some (new_row (automated_fields Scenario.job) 9))
    by (vm_compute; reflexivity).
  assert (FF : fault_free Scenario.quiet) by (intros s t; reflexivity).
  destruct (executor_maps_outcome Scenario.quiet "J1" Scenario.synced
              (new_row (automated_fields Scenario.job) 9) FF L eq_refl)
    as [_ H].
  destruct H as [H _].
  - reflexivity.
  - intro t. reflexivity.
  - apply (H "ok" ""). intro t. reflexivity.
Defined.

(** ** Synchronising twice *)

Lemma agrees_updated_row a t r : agrees a (updated_row a t r).
Proof. reflexivity. Qed.

Lemma agrees_new_row a t : agrees a (new_row a t).
Proof. reflexivity. Qed.




Lemma forget_id r : id (forget_updated_at r) = id r.
Proof. reflexivity. Qed.

Lemma find_none_no_row k l r :
  find (has_id k) l = None -> In r l -> id r <> k.
Proof.
  intros N I Q. apply (find_none _ _ N) in I.
  apply has_id_true in Q. congruence.
Qed.

Lemma in_updated k f l r' :
  In r' (updated k f l) ->
  exists r, In r l /\ r' = if has_id k r then f r else r.
Proof.
  unfold updated. intro I. apply in_map_iff in I.
  destruct I as (r & Q & I). eauto.
Qed.

Lemma settled_lookup a d :
  settled a d ->
  exists row, lookup (arg_task_id a) d = Some row /\ agrees a row.
Proof.
  intros [(r & I & Q) A]. unfold lookup.
  destruct (find (has_id (arg_task_id a)) (tasks d)) as [row|] eqn:F.
  - exists row. split; auto. apply find_some in F. destruct F as [I' H].
    apply A; auto. now apply has_id_true.
  - exfalso. eapply find_none_no_row; eauto.
Qed.

(** After an upsert in which nothing fails, the store holds its task. *)
Lemma upsert_settles env a w r w' :
  fault_free env ->
  add_or_update_task env a w = (r, w') ->
  settled a (db w').
Proof.
  intros FF E. apply (add_or_update_task_ok _ _ _ _ _ FF) in E.
  destruct E as (_ & _ & M). unfold lookup in M.
  destruct (find (has_id (arg_task_id a)) (tasks (db w))) as [row|] eqn:F.
  - destruct M as (t & T & _). unfold settled. rewrite T. split.
    + apply find_some in F. destruct F as [I H].
      exists (updated_row a t row). split.
      * unfold updated. apply in_map_iff. exists row. rewrite H. auto.
      * rewrite updated_row_id. now apply has_id_true.
    + intros r' I Q. apply in_updated in I. destruct I as (r0 & I & ->).
      destruct (has_id (arg_task_id a) r0) eqn:H.
      * apply agrees_updated_row.
      * apply has_id_false in H. contradiction.
  - destruct M as (t & _ & _ & T & _). unfold settled. rewrite T. split.
    + exists (new_row a t). split; [|reflexivity].
      apply in_or_app. right. now left.
    + intros r' I Q. apply in_app_or in I. destruct I as [I|[<-|[]]].
      * exfalso. eapply find_none_no_row; eauto.
      * apply agrees_new_row.
Qed.

(** It does not disturb the tasks of other ids. *)
Lemma upsert_keeps_settled env a b w r w' :
  fault_free env ->
  arg_task_id a <> arg_task_id b ->
  add_or_update_task env a w = (r, w') ->
  settled b (db w) -> settled b (db w').
Proof.
  intros FF N E [(r0 & I0 & Q0) A].
  apply (add_or_update_task_ok _ _ _ _ _ FF) in E.
  destruct E as (_ & _ & M).
  destruct (lookup (arg_task_id a) (db w)) as [row|].
  - destruct M as (t & T & _). unfold settled. rewrite T. split.
    + exists r0. split; auto. apply updated_keeps_others; congruence.
    + intros r' I Q. apply in_updated in I. destruct I as (r1 & I & ->).
      destruct (has_id (arg_task_id a) r1) eqn:H.
      * apply has_id_true in H. rewrite updated_row_id in Q. congruence.
      * now apply A.
  - destruct M as (t & _ & _ & T & _). unfold settled. rewrite T. split.
    + exists r0. split; auto. apply in_or_app. now left.
    + intros r' I Q. apply in_app_or in I. destruct I as [I|[<-|[]]].
      * now apply A.
      * cbn in Q. congruence.
Qed.



Lemma upsert_all_app env l1 l2 w :
  upsert_all env (l1 ++ l2) w = (upsert_all env l1 ;; upsert_all env l2) w.
Proof.
  revert w. induction l1 as [|a l1 IH]; intro w; cbn.
  - reflexivity.
  - unfold bind in *.
    destruct (add_or_update_task env a w) as [[b|e] w1]; auto.
Qed.

Lemma upsert_all_step env a l w :
  fault_free env ->
  exists w1,
    add_or_update_task env a w = (Val true, w1) /\
    upsert_all env (a :: l) w = upsert_all env l w1.
Proof.
  intro FF. destruct (add_or_update_task env a w) as [r w1] eqn:E.
  destruct (add_or_update_task_ok _ _ _ _ _ FF E) as (-> & _).
  exists w1. split; auto. cbn. unfold bind. rewrite E. reflexivity.
Qed.

Lemma upsert_all_keeps_settled env b l :
  fault_free env ->
  (forall a, In a l -> arg_task_id a <> arg_task_id b) ->
  forall w, settled b (db w) -> settled b (db (after (upsert_all env l w))).
Proof.
  intros FF. induction l as [|a l IH]; intros N w S.
  - exact S.
  - destruct (upsert_all_step env a l w FF) as (w1 & E & ->).
    apply IH.
    + intros a' I. apply N. now right.
    + eapply upsert_keeps_settled; eauto. apply N. now left.
Qed.

(** After a synchronisation of entries with distinct ids, the store holds
    every one of them. *)
Lemma upsert_all_settles env l :
  fault_free env ->
  NoDup (map arg_task_id l) ->
  forall w a, In a l -> settled a (db (after (upsert_all env l w))).
Proof.
  intros FF. induction l as [|a0 l IH]; intros N w a I; [contradiction|].
  cbn in N. inversion N as [|? ? X N']; subst.
  destruct (upsert_all_step env a0 l w FF) as (w1 & E & ->).
  destruct I as [<-|I].
  - apply upsert_all_keeps_settled; auto.
    + intros a I Q. apply X. rewrite <- Q. now apply in_map.
    + eapply upsert_settles; eauto.
  - now apply IH.
Qed.


Lemma declared_arg_ids config :
  map arg_task_id (declared config) = declared_ids config.
Proof.
  unfold declared, declared_ids. rewrite !map_app, !map_map. reflexivity.
Qed.

Lemma sync_is_upsert_all env config w :
  enabled env = true ->
  sync_tasks_from_config env config w = upsert_all env (declared config) w.
Proof.
  intro En. unfold sync_tasks_from_config, declared. rewrite En. cbn.
  symmetry. apply upsert_all_app.
Qed.




(** ** What holds of the invariant and of rollback *)

Lemma latest_entry_app k h e :
  latest_entry k (h ++ [e]) = if about k e then Some e else latest_entry k h.
Proof.
  induction h as [|x h IH]; cbn.
  - reflexivity.
  - rewrite IH. destruct (about k e); reflexivity.
Qed.

Lemma about_entry j k old new who t note :
  about j (entry k old new who t note) = (k =? j)%string.
Proof. reflexivity. Qed.

(** A row written together with its history entry is consistent, and the
    rows of the other ids stay so. *)
Lemma consistent_written k f l h e st :
  (forall r, id (f r) = id r) -> (forall r, status (f r) = st) ->
  task_id e = k -> new_status e = st ->
  consistent {| tasks := l; task_history := h |} ->
  consistent {| tasks := updated k f l; task_history := h ++ [e] |}.
Proof.
  intros Fi Fs Ek En C r' I. apply in_updated in I.
  destruct I as (r & I & ->). unfold latest_status. cbn.
  rewrite latest_entry_app. unfold about. rewrite Ek.
  destruct (has_id k r) eqn:H.
  - rewrite Fi. unfold has_id in H. rewrite String.eqb_sym, H. cbn.
    now rewrite Fs, En.
  - unfold has_id in H. rewrite String.eqb_sym, H. now apply C.
Qed.

Lemma update_task_status_consistent env k new who note w r w' :
  (forall t, fails env InsertHistory t = false) ->
  idle w -> consistent (db w) ->
  update_task_status env k new who note w = (r, w') ->
  consistent (db w').
Proof.
  intros NF I C E. apply (update_task_status_run _ _ _ _ _ _ _ _ I) in E.
  destruct E as (_ & _ & _ &
    [(_ & Q) | [(_ & Q & _) | (_ & row & t & L & _ & T & H)]]).
  - now rewrite Q.
  - now rewrite Q.
  - destruct H as [(t' & H) | (_ & t' & F)]; [|rewrite NF in F; discriminate].
    destruct (db w') as [l' h']. cbn in T, H. subst.
    destruct (db w) as [l h].
    now apply consistent_written with (st := new).
Qed.

Lemma add_or_update_task_consistent env a w r w' :
  (forall t, fails env InsertHistory t = false) ->
  idle w -> consistent (db w) ->
  add_or_update_task env a w = (r, w') ->
  consistent (db w').
Proof.
  intros NF I C E. apply (add_or_update_task_run _ _ _ _ _ I) in E.
  destruct E as (_ & _ & _ &
    [(_ & Q) | [(_ & row & t & L & S & T & H & _) |
                [(_ & row & t & L & _ & T & H & _) |
                 (_ & t & L & T & H & _)]]]).
  - now rewrite Q.
  - intros r' R. rewrite T in R. apply in_updated in R.
    destruct R as (r0 & R & ->). unfold latest_status. rewrite H.
    destruct (has_id (arg_task_id a) r0) eqn:K.
    + rewrite updated_row_id. cbn [status updated_row].
      apply has_id_true in K. rewrite <- S.
      apply find_some in L. destruct L as [Lr Lk]. apply has_id_true in Lk.
      rewrite K, <- Lk. now apply C.
    + now apply C.
  - destruct H as [(t' & H) | (_ & t' & F)]; [|rewrite NF in F; discriminate].
    destruct (db w') as [l' h']. cbn in T, H. subst.
    destruct (db w) as [l h].
    now apply consistent_written with (st := arg_status a).
  - destruct H as [(t' & H) | (_ & t' & F)]; [|rewrite NF in F; discriminate].
    intros r' R. rewrite T in R. unfold latest_status. rewrite H.
    rewrite latest_entry_app, about_entry.
    apply in_app_or in R. destruct R as [R|[<-|[]]].
    + assert (N : id r' <> arg_task_id a)
        by (eapply find_none_no_row; eauto).
      apply not_eq_sym in N. apply String.eqb_neq in N. rewrite N.
      now apply C.
    + cbn. now rewrite String.eqb_refl.
Qed.

(** X7: as long as no insert into [task_history] fails, every sequence of
    store operations keeps each task's status equal to the new status of its
    latest history entry, whatever else fails. *)
Lemma consistency_is_kept env ops :
  (forall t, fails env InsertHistory t = false) ->
  forall w,
    idle w -> consistent (db w) ->
    idle (run_ops env ops w) /\ consistent (db (run_ops env ops w)).
Proof.
  intro NF. induction ops as [|o ops IH]; intros w I C; cbn; [auto|].
  destruct (run_op env o w) as [r w1] eqn:E. cbn.
  apply IH; destruct o; cbn in E.
  - now apply (add_or_update_task_run _ _ _ _ _ I) in E.
  - now apply (update_task_status_run _ _ _ _ _ _ _ _ I) in E.
  - apply (execute_automated_task_preserves _ _ consistent) in E; auto.
    + tauto.
    + intros. eapply update_task_status_consistent; eauto.
  - eapply add_or_update_task_consistent; eauto.
  - eapply update_task_status_consistent; eauto.
  - apply (execute_automated_task_preserves _ _ consistent) in E; auto.
    + tauto.
    + intros. eapply update_task_status_consistent; eauto.
Qed.

(** X6: a call that returns false has left the store as it was: the
    failures of the other statements are rolled back. *)
Lemma failed_call_restores env w :
  idle w ->
  (forall a,
     returned (add_or_update_task env a w) = Val false ->
     db (after (add_or_update_task env a w)) = db w /\
     committed (after (add_or_update_task env a w)) = committed w) /\
  (forall k new who note,
     returned (update_task_status env k new who note w) = Val false ->
     db (after (update_task_status env k new who note w)) = db w /\
     committed (after (update_task_status env k new who note w)) = committed w).
Proof.
  intro I. split.
  - intros a. destruct (add_or_update_task env a w) as [r w'] eqn:E. cbn.
    intro R. apply (add_or_update_task_run _ _ _ _ _ I) in E.
    destruct E as (I' & _ & _ & [(_ & Q) | [(F & _) | [(F & _) | (F & _)]]]);
      try congruence.
    unfold idle in *. split; congruence.
  - intros k new who note.
    destruct (update_task_status env k new who note w) as [r w'] eqn:E. cbn.
    intro R. apply (update_task_status_run _ _ _ _ _ _ _ _ I) in E.
    destruct E as (I' & _ & _ & [(_ & Q) | [(F & _) | (F & _)]]);
      try congruence.
    unfold idle in *. split; congruence.
Qed.

(** * More of the manager *)

(** ** What every operation keeps *)

Lemma add_or_update_task_returns env a w r w' :
  idle w -> add_or_update_task env a w = (r, w') ->
  idle w' /\ exists b, r = Val b.
Proof.
  intros I E. apply (add_or_update_task_run _ _ _ _ _ I) in E.
  destruct E as (I' & _ & _ & [(R & _) | [(R & _) | [(R & _) | (R & _)]]]);
    eauto.
Qed.

Lemma upsert_all_preserves env (P : DB -> Prop) :
  (forall a w r w',
     idle w -> P (db w) -> add_or_update_task env a w = (r, w') -> P (db w')) ->
  forall l w,
    idle w -> P (db w) ->
    idle (after (upsert_all env l w)) /\ P (db (after (upsert_all env l w))).
Proof.
  intros HU. induction l as [|a l IH]; intros w I Pw; cbn; [auto|].
  unfold bind. destruct (add_or_update_task env a w) as [r w1] eqn:E.
  destruct (add_or_update_task_returns _ _ _ _ _ I E) as (I1 & b & ->).
  apply IH; eauto.
Qed.

Lemma scan_preserves env (P : DB -> Prop) :
  (forall k new who note w r w',
     idle w -> P (db w) ->
     update_task_status env k new who note w = (r, w') -> P (db w')) ->
  forall l w r w',
    idle w -> P (db w) -> scan env l w = (r, w') ->
    idle w' /\ P (db w').
Proof.
  intros HT. induction l as [|t l IH]; intros w r w' I Pw E; cbn in E.
  - paths E. auto.
  - paths E.
    all: repeat match goal with
      | H : execute_automated_task _ _ ?w0 = _ |- _ =>
          apply (execute_automated_task_preserves _ _ P) in H;
          [destruct H as (? & ? & ? & ? & ?) | apply HT | assumption
          | assumption]
      end.
    all: try discriminate.
    all: match goal with
      | H : scan _ _ ?w0 = _ |- _ => eapply IH in H; eauto
      end.
Qed.

(** What the upsert and the status transition keep, every operation keeps:
    the executor, the scan and the synchronisation touch the store through
    these two only. *)
Lemma after_every_operation_intro env config (P : DB -> Prop) w :
  (forall a w r w',
     idle w -> P (db w) -> add_or_update_task env a w = (r, w') -> P (db w')) ->
  (forall k new who note w r w',
     idle w -> P (db w) ->
     update_task_status env k new who note w = (r, w') -> P (db w')) ->
  idle w -> P (db w) ->
  after_every_operation env config w (fun w' => idle w' /\ P (db w')).
Proof.
  intros HU HT I Pw. unfold after_every_operation.
  split; [|split; [|split; [|split]]].
  - intro a. destruct (add_or_update_task env a w) as [r w'] eqn:E.
    unfold after; cbn [snd]. split; [|exact (HU _ _ _ _ I Pw E)].
    apply (add_or_update_task_returns _ _ _ _ _ I) in E. tauto.
  - intros k new who note.
    destruct (update_task_status env k new who note w) as [r w'] eqn:E.
    unfold after; cbn [snd]. split; [|exact (HT _ _ _ _ _ _ _ I Pw E)].
    apply (update_task_status_run _ _ _ _ _ _ _ _ I) in E. tauto.
  - intro k. destruct (execute_automated_task env k w) as [r w'] eqn:E.
    unfold after; cbn [snd].
    apply (execute_automated_task_preserves _ _ P (HT k) _ _ _ I Pw) in E.
    tauto.
  - destruct (check_and_execute_scheduled_tasks env w) as [r w'] eqn:E.
    unfold after; cbn [snd].
    unfold check_and_execute_scheduled_tasks in E. paths E.
    all: match goal with H : list_tasks _ _ _ _ _ _ _ = _ |- _ =>
           apply list_tasks_inv in H;
           destruct H as ((D & C & _) & _ & _ & L) end.
    + match goal with H : scan _ _ _ = _ |- _ =>
        apply (scan_preserves _ P HT) in H; [tauto | | cbn; congruence] end.
      unfold idle in *. cbn. congruence.
    + unfold idle in *. split; congruence.
  - unfold sync_tasks_from_config. destruct (negb (enabled env)); [cbn; auto|].
    unfold bind.
    destruct (upsert_all_preserves env P HU (map manual_fields (manual config))
                w I Pw) as [I1 P1].
    destruct (upsert_all env (map manual_fields (manual config)) w)
      as [[u|e] w1]; unfold after in *; cbn [snd] in *; [|auto].
    now apply upsert_all_preserves.
Qed.

(** ** The footprint of the two writers *)

Lemma update_task_status_touches env k new who note w r w' :
  idle w ->
  update_task_status env k new who note w = (r, w') ->
  touches k (db w) (db w').
Proof.
  intros I E. apply (update_task_status_run _ _ _ _ _ _ _ _ I) in E.
  destruct E as (_ & _ & _ &
    [(_ & Q) | [(_ & Q & _) | (_ & row & t & _ & _ & T & H)]]).
  - now left.
  - now left.
  - right; left. exists (set_status new t). repeat split; auto.
    destruct H as [(t' & H) | (H & _)]; [right|left; exact H].
    eexists. split; [|exact H]. reflexivity.
Qed.

Lemma add_or_update_task_touches env a w r w' :
  idle w ->
  add_or_update_task env a w = (r, w') ->
  touches (arg_task_id a) (db w) (db w').
Proof.
  intros I E. apply (add_or_update_task_run _ _ _ _ _ I) in E.
  destruct E as (_ & _ & _ &
    [(_ & Q) | [(_ & row & t & _ & _ & T & H & _) |
                [(_ & row & t & _ & _ & T & H & _) |
                 (_ & t & L & T & H & _)]]]).
  - now left.
  - right; left. exists (updated_row a t). repeat split; auto. now left.
  - right; left. exists (updated_row a t). repeat split; auto.
    destruct H as [(t' & H) | (H & _)]; [right|left; exact H].
    eexists. split; [|exact H]. reflexivity.
  - right; right. split; auto. exists (new_row a t). repeat split; auto.
    destruct H as [(t' & H) | (H & _)]; [right|left; exact H].
    eexists. split; [|exact H]. reflexivity.
Qed.

Lemma updated_keys k f l :
  (forall r, key (f r) = key r) -> map key (updated k f l) = map key l.
Proof.
  intro F. unfold updated. rewrite map_map. apply map_ext.
  intro r. destruct (has_id k r); auto.
Qed.

Lemma key_id r r' : key r = key r' -> id r = id r'.
Proof. unfold key. congruence. Qed.


Lemma touches_grows k d d' : touches k d d' -> grows d d'.
Proof.
  assert (HS : forall d1 d2, history_step k d1 d2 ->
                exists entries, task_history d2 = task_history d1 ++ entries).
  { intros d1 d2 [H|(e & _ & H)].
    - exists []. now rewrite app_nil_r.
    - now exists [e]. }
  intros [-> | [(f & F & T & H) | (L & r & K & T & H)]]; split; auto.
  - exists []. now rewrite app_nil_r.
  - exists []. now rewrite app_nil_r.
  - exists []. rewrite T, updated_keys, app_nil_r; auto.
  - exists [key r]. now rewrite T, map_app.
Qed.

Lemma grows_refl d : grows d d.
Proof. split; exists []; now rewrite app_nil_r. Qed.

Lemma grows_trans d1 d2 d3 : grows d1 d2 -> grows d2 d3 -> grows d1 d3.
Proof.
  intros [(r1 & R1) (e1 & E1)] [(r2 & R2) (e2 & E2)]. split.
  - exists (r1 ++ r2). now rewrite R2, R1, app_assoc.
  - exists (e1 ++ e2). now rewrite E2, E1, app_assoc.
Qed.

(** X1: no operation leaves a transaction open: each one ends with a commit
    or a rollback, whatever fails. *)
Theorem no_transaction_is_left_open env config w :
  idle w -> after_every_operation env config w idle.
Proof.
  intro I.
  destruct (after_every_operation_intro env config (fun _ => True) w)
    as (A & B & C & D & E); auto.
  repeat split; intros; first [apply A | apply B | apply C | apply D | apply E].
Qed.

Lemma no_transaction_is_left_open_witness :
  idle (after (sync_tasks_from_config Scenario.history_fails Scenario.manifest
                 Scenario.synced)).
Proof.
  apply (no_transaction_is_left_open Scenario.history_fails Scenario.manifest
           Scenario.synced).
  vm_compute. reflexivity.
Defined.

(** *** Where rows come from *)










(** X3: nothing is ever deleted or renamed: after any operation the rows that
    were stored are still there, in place, with their id and creation time,
    and the history that was recorded is a prefix of the history. *)
Theorem store_only_grows env config w :
  idle w ->
  after_every_operation env config w (fun w' => grows (db w) (db w')).
Proof.
  intro I.
  destruct (after_every_operation_intro env config (grows (db w)) w)
    as (A & B & C & D & E); auto using grows_refl.
  - intros a w0 r w0' I0 G E0. eapply grows_trans; eauto.
    eapply touches_grows, add_or_update_task_touches; eauto.
  - intros k new who note w0 r w0' I0 G E0. eapply grows_trans; eauto.
    eapply touches_grows, update_task_status_touches; eauto.
  - repeat split; intros;
      first [apply A | apply B | apply C | apply D | apply E].
Qed.

Lemma store_only_grows_witness :
  grows (db Scenario.ran)
    (db (after (sync_tasks_from_config Scenario.quiet Scenario.twice
                  Scenario.ran))).
Proof.
  apply (store_only_grows Scenario.quiet Scenario.twice Scenario.ran).
  vm_compute. reflexivity.
Defined.

Lemma history_step_other k j d d' :
  j <> k -> history_step k d d' ->
  filter (about j) (task_history d') = filter (about j) (task_history d).
Proof.
  intros N [H|(e & K & H)]; rewrite H; auto.
  rewrite filter_app. cbn. unfold about at 2. rewrite K.
  apply not_eq_sym in N. apply String.eqb_neq in N. rewrite N.
  apply app_nil_r.
Qed.

Lemma touches_other k j d d' :
  j <> k -> touches k d d' ->
  lookup j d' = lookup j d /\
  filter (about j) (task_history d') = filter (about j) (task_history d).
Proof.
  intros N [-> | [(f & F & T & H) | (L & r & K & T & H)]]; auto.
  - split; [|eapply history_step_other; eauto].
    unfold lookup. rewrite T. apply find_updated_other; auto.
    intro r. apply key_id, F.
  - split; [|eapply history_step_other; eauto].
    unfold lookup. rewrite T. apply find_app_other. congruence.
Qed.

(** X4: an operation on one task changes neither the row nor the history
    entries of any other task: this holds of a status transition, of an
    upsert and of an execution, whatever fails. *)
Theorem other_tasks_are_untouched env w j :
  idle w ->
  (forall k new who note,
     j <> k ->
     lookup j (db (after (update_task_status env k new who note w)))
     = lookup j (db w) /\
     filter (about j)
       (task_history (db (after (update_task_status env k new who note w))))
     = filter (about j) (task_history (db w))) /\
  (forall a,
     j <> arg_task_id a ->
     lookup j (db (after (add_or_update_task env a w))) = lookup j (db w) /\
     filter (about j) (task_history (db (after (add_or_update_task env a w))))
     = filter (about j) (task_history (db w))) /\
  (forall k,
     j <> k ->
     lookup j (db (after (execute_automated_task env k w))) = lookup j (db w) /\
     filter (about j) (task_history (db (after (execute_automated_task env k w))))
     = filter (about j) (task_history (db w))).
Proof.
  intro I. split; [|split].
  - intros k new who note N.
    destruct (update_task_status env k new who note w) as [r w'] eqn:E.
    unfold after; cbn [snd].
    eapply touches_other; eauto. eapply update_task_status_touches; eauto.
  - intros a N.
    destruct (add_or_update_task env a w) as [r w'] eqn:E.
    unfold after; cbn [snd].
    eapply touches_other; eauto. eapply add_or_update_task_touches; eauto.
  - intros k N.
    destruct (execute_automated_task env k w) as [r w'] eqn:E.
    unfold after; cbn [snd].
    apply (execute_automated_task_preserves env k
             (fun d => lookup j d = lookup j (db w) /\
                       filter (about j) (task_history d)
                       = filter (about j) (task_history (db w)))) in E;
      auto; [tauto|].
    intros new who note w0 r0 w0' I0 [L H] E0.
    apply (update_task_status_touches _ _ _ _ _ _ _ _ I0) in E0.
    apply (touches_other k j) in E0; auto.
    destruct E0 as [L' H']. split; congruence.
Qed.

Lemma other_tasks_are_untouched_witness :
  lookup "T1" (db (after (execute_automated_task Scenario.history_fails "J1"
                            Scenario.synced)))
  = lookup "T1" (db Scenario.synced) /\
  filter (about "T1")
    (task_history (db (after (execute_automated_task Scenario.history_fails
                                "J1" Scenario.synced))))
  = filter (about "T1") (task_history (db Scenario.synced)).
Proof.
  apply (other_tasks_are_untouched Scenario.history_fails Scenario.synced "T1").
  - vm_compute. reflexivity.
  - discriminate.
Defined.

(** ** What the return value of a writer says *)

Lemma updated_settled a t l row :
  find (has_id (arg_task_id a)) l = Some row ->
  forall h, settled a {| tasks := updated (arg_task_id a) (updated_row a t) l;
                         task_history := h |}.
Proof.
  intros F h. split; cbn.
  - apply find_some in F. destruct F as [I H].
    exists (updated_row a t row). split.
    + unfold updated. apply in_map_iff. exists row. rewrite H. auto.
    + rewrite updated_row_id. now apply has_id_true.
  - intros r' I Q. apply in_updated in I. destruct I as (r0 & I & ->).
    destruct (has_id (arg_task_id a) r0) eqn:H.
    + apply agrees_updated_row.
    + apply has_id_false in H. contradiction.
Qed.

Lemma inserted_settled a t l :
  find (has_id (arg_task_id a)) l = None ->
  forall h, settled a {| tasks := l ++ [new_row a t]; task_history := h |}.
Proof.
  intros F h. split; cbn.
  - exists (new_row a t). split; [|reflexivity].
    apply in_or_app. right. now left.
  - intros r' I Q. apply in_app_or in I. destruct I as [I|[<-|[]]].
    + exfalso. eapply find_none_no_row; eauto.
    + apply agrees_new_row.
Qed.

Lemma agrees_carries a r : agrees a r -> carries a r.
Proof.
  unfold agrees, forget_updated_at, updated_row, carries, or_empty. intro A.
  inversion A. repeat split; auto.
Qed.

(** X5: what [True] means.  When an upsert returns true, the committed
    store holds a row for its id, and every row of that id holds, column by
    column, what was passed: title, description, assignee, executor, due
    date, status, priority, tags, prerequisites, type, schedule, trigger,
    script and parameters, with the empty list for tags, prerequisites or
    parameters that were not passed.  When a status transition returns
    true, the committed row has the requested status.  This holds whatever
    else fails. *)
Theorem true_means_written env w :
  idle w ->
  (forall a,
     returned (add_or_update_task env a w) = Val true ->
     (exists r,
        In r (tasks (committed (after (add_or_update_task env a w)))) /\
        id r = arg_task_id a) /\
     (forall r,
        In r (tasks (committed (after (add_or_update_task env a w)))) ->
        id r = arg_task_id a -> carries a r)) /\
  (forall k new who note,
     returned (update_task_status env k new who note w) = Val true ->
     option_map status
       (lookup k (committed (after (update_task_status env k new who note w))))
     = Some new).
Proof.
  intro I. split.
  - intro a. destruct (add_or_update_task env a w) as [r w'] eqn:E.
    unfold returned, after; cbn [fst snd]. intro R.
    assert (S : settled a (committed w')).
    { apply (add_or_update_task_run _ _ _ _ _ I) in E.
      destruct E as (I' & _ & _ &
        [(F & _) | [(_ & row & t & L & _ & T & _) |
                    [(_ & row & t & L & _ & T & _) | (_ & t & L & T & _)]]]);
        try congruence; rewrite <- I'; destruct (db w') as [l' h'];
        cbn in T; subst l'.
      - eapply updated_settled; eauto.
      - eapply updated_settled; eauto.
      - now apply inserted_settled. }
    destruct S as [X A]. split; [exact X|].
    intros r0 R0 Q. apply agrees_carries. now apply A.
  - intros k new who note.
    destruct (update_task_status env k new who note w) as [r w'] eqn:E.
    unfold returned, after; cbn [fst snd]. intro R.
    apply (update_task_status_run _ _ _ _ _ _ _ _ I) in E.
    destruct E as (I' & _ & _ &
      [(F & _) | [(_ & Q & row & L & S) | (_ & row & t & L & _ & T & _)]]);
      try congruence; rewrite <- I'.
    + rewrite Q, L. cbn. now rewrite S.
    + unfold lookup in *. rewrite T, find_updated_same, L; auto.
Qed.

Lemma true_means_written_witness :
  ((exists r,
      In r (tasks (committed (after (add_or_update_task Scenario.history_fails
                                       (manual_fields Scenario.review_done)
                                       Scenario.synced)))) /\
      id r = "T1") /\
   (forall r,
      In r (tasks (committed (after (add_or_update_task Scenario.history_fails
                                       (manual_fields Scenario.review_done)
                                       Scenario.synced)))) ->
      id r = "T1" -> carries (manual_fields Scenario.review_done) r)) /\
  option_map status
    (lookup "T1"
       (committed (after (update_task_status Scenario.history_fails "T1"
                            "blocked" "alice" None Scenario.synced))))
  = Some "blocked".
Proof.
  destruct (true_means_written Scenario.history_fails Scenario.synced)
    as [A B].
  - vm_compute. reflexivity.
  - split.
    + apply (A (manual_fields Scenario.review_done)). vm_compute. reflexivity.
    + apply B. vm_compute. reflexivity.
Defined.

Lemma failed_call_restores_witness :
  db (after (update_task_status Scenario.quiet "T9" "blocked" "alice" None
               Scenario.synced)) = db Scenario.synced /\
  committed (after (update_task_status Scenario.quiet "T9" "blocked" "alice"
                      None Scenario.synced)) = committed Scenario.synced.
Proof.
  apply (failed_call_restores Scenario.quiet Scenario.synced).
  - vm_compute. reflexivity.
  - vm_compute. reflexivity.
Defined.

Lemma consistency_is_kept_witness :
  idle (run_ops Scenario.quiet
          [AddOrUpdate (manual_fields Scenario.review);
           UpdateStatus "T1" "in_progress" "alice" None;
           UpdateStatus "T1" "completed" "alice" (Some "done")]
          Scenario.empty) /\
  consistent
    (db (run_ops Scenario.quiet
           [AddOrUpdate (manual_fields Scenario.review);
            UpdateStatus "T1" "in_progress" "alice" None;
            UpdateStatus "T1" "completed" "alice" (Some "done")]
           Scenario.empty)).
Proof.
  apply (consistency_is_kept Scenario.quiet).
  - intro t. reflexivity.
  - reflexivity.
  - intros r [].
Defined.

(** ** The history as a faithful record *)

Lemma latest_entry_some k h e :
  latest_entry k h = Some e -> In e h /\ task_id e = k.
Proof.
  induction h as [|x h IH]; cbn; [discriminate|].
  destruct (latest_entry k h) as [y|].
  - intro Q. inversion Q; subst. destruct IH as [I K]; auto.
  - destruct (about k x) eqn:A; [|discriminate].
    intro Q. inversion Q; subst. split; auto.
    unfold about in A. now apply String.eqb_eq.
Qed.

Lemma no_row_no_entry k d :
  referential d -> lookup k d = None -> latest_entry k (task_history d) = None.
Proof.
  intros R L. destruct (latest_entry k (task_history d)) as [e|] eqn:Q; auto.
  apply latest_entry_some in Q. destruct Q as [I K].
  destruct (R e I) as (r & Ir & Kr). exfalso.
  eapply find_none_no_row; eauto. congruence.
Qed.

Lemma updated_has_row k f l r :
  (forall x, id (f x) = id x) -> In r l ->
  exists r', In r' (updated k f l) /\ id r' = id r.
Proof.
  intros F I. exists (if has_id k r then f r else r). split.
  - unfold updated. apply in_map_iff. eauto.
  - destruct (has_id k r); auto.
Qed.

Lemma referential_updated k f l h :
  (forall x, id (f x) = id x) ->
  referential {| tasks := l; task_history := h |} ->
  referential {| tasks := updated k f l; task_history := h |}.
Proof.
  intros F R e I. destruct (R e I) as (r & Ir & K). cbn in *.
  destruct (updated_has_row k f l r F Ir) as (r' & I' & K').
  exists r'. split; auto. congruence.
Qed.

Lemma referential_entry l h e :
  (exists r, In r l /\ id r = task_id e) ->
  referential {| tasks := l; task_history := h |} ->
  referential {| tasks := l; task_history := h ++ [e] |}.
Proof.
  intros X R e' I. cbn in *. apply in_app_or in I.
  destruct I as [I|[<-|[]]]; auto.
Qed.

Lemma update_task_status_faithful env k new who note w r w' :
  (forall t, fails env InsertHistory t = false) ->
  idle w -> faithful (db w) ->
  update_task_status env k new who note w = (r, w') ->
  faithful (db w').
Proof.
  intros NF I (C & R & H) E.
  assert (C' : consistent (db w'))
    by (eapply update_task_status_consistent; eauto).
  apply (update_task_status_run _ _ _ _ _ _ _ _ I) in E.
  destruct E as (_ & _ & _ &
    [(_ & Q) | [(_ & Q & _) | (_ & row & t & L & _ & T & X)]]).
  - rewrite Q in *. repeat split; auto.
  - rewrite Q in *. repeat split; auto.
  - destruct X as [(t' & X) | (_ & t' & F)]; [|rewrite NF in F; discriminate].
    split; [exact C'|].
    assert (Lr : In row (tasks (db w)) /\ id row = k).
    { unfold lookup in L. apply find_some in L. destruct L as [Lr Lk].
      split; auto. now apply has_id_true. }
    destruct Lr as [Lr Lk].
    destruct (db w') as [l' h']. cbn in T, X. subst l' h'.
    destruct (db w) as [l h] eqn:D. cbn in *. split.
    + apply referential_entry.
      * cbn. destruct (updated_has_row k (set_status new t) l row) as (r' & ? & ?);
          auto. exists r'. split; auto. congruence.
      * now apply referential_updated.
    + constructor; auto. cbn.
      specialize (C row Lr). unfold latest_status in C. cbn in C.
      rewrite Lk in C. now rewrite C.
Qed.

Lemma add_or_update_task_faithful env a w r w' :
  (forall t, fails env InsertHistory t = false) ->
  idle w -> faithful (db w) ->
  add_or_update_task env a w = (r, w') ->
  faithful (db w').
Proof.
  intros NF I (C & R & H) E.
  assert (C' : consistent (db w'))
    by (eapply add_or_update_task_consistent; eauto).
  apply (add_or_update_task_run _ _ _ _ _ I) in E.
  destruct E as (_ & _ & _ &
    [(_ & Q) | [(_ & row & t & L & S & T & X & _) |
                [(_ & row & t & L & _ & T & X & _) |
                 (_ & t & L & T & X & _)]]]).
  - rewrite Q in *. repeat split; auto.
  - split; [exact C'|].
    destruct (db w') as [l' h']. cbn in T, X. subst l' h'.
    destruct (db w) as [l h] eqn:D. cbn in *. split; auto.
    now apply referential_updated.
  - destruct X as [(t' & X) | (_ & t' & F)]; [|rewrite NF in F; discriminate].
    split; [exact C'|].
    assert (Lr : In row (tasks (db w)) /\ id row = arg_task_id a).
    { unfold lookup in L. apply find_some in L. destruct L as [Lr Lk].
      split; auto. now apply has_id_true. }
    destruct Lr as [Lr Lk].
    destruct (db w') as [l' h']. cbn in T, X. subst l' h'.
    destruct (db w) as [l h] eqn:D. cbn in *. split.
    + apply referential_entry.
      * cbn.
        destruct (updated_has_row (arg_task_id a) (updated_row a t) l row)
          as (r' & ? & ?); auto. exists r'. split; auto. congruence.
      * now apply referential_updated.
    + constructor; auto. cbn.
      specialize (C row Lr). unfold latest_status in C. cbn in C.
      rewrite Lk in C. now rewrite C.
  - destruct X as [(t' & X) | (_ & t' & F)]; [|rewrite NF in F; discriminate].
    split; [exact C'|].
    pose proof (no_row_no_entry _ _ R L) as N.
    destruct (db w') as [l' h']. cbn in T, X. subst l' h'.
    destruct (db w) as [l h] eqn:D. cbn in *. split.
    + intros e I'. cbn in *. apply in_app_or in I'.
      destruct I' as [I'|[<-|[]]].
      * destruct (R e I') as (r0 & I0 & K0). exists r0. split; auto.
        apply in_or_app. now left.
      * exists (new_row a t). split; [|reflexivity].
        apply in_or_app. right. now left.
    + constructor; auto. cbn. now rewrite N.
Qed.

(** X8: as long as no insert into [task_history] fails, the history is a
    faithful record, whatever else fails and whichever operations run: each
    task has the status its latest entry ends with, every entry is about a
    stored task, and every entry starts from the status the previous entry
    of the same task ended with (the first one from none). *)
Theorem history_is_faithful env config w :
  (forall t, fails env InsertHistory t = false) ->
  idle w -> faithful (db w) ->
  after_every_operation env config w (fun w' => faithful (db w')).
Proof.
  intros NF I F.
  destruct (after_every_operation_intro env config faithful w)
    as (A & B & C & D & E); auto.
  - intros. eapply add_or_update_task_faithful; eauto.
  - intros. eapply update_task_status_faithful; eauto.
  - repeat split; intros;
      first [apply A | apply B | apply C | apply D | apply E].
Qed.

Lemma history_is_faithful_witness :
  faithful
    (db (after (sync_tasks_from_config Scenario.quiet Scenario.twice
                  Scenario.empty))).
Proof.
  apply (history_is_faithful Scenario.quiet Scenario.twice Scenario.empty).
  - intro t. reflexivity.
  - reflexivity.
  - repeat split.
    + intros r [].
    + intros e [].
    + constructor.
Defined.

(** ** Reading *)

Lemma keeps_spec o v :
  keeps o v = true <-> (truthy o = true -> v = fmt o).
Proof.
  unfold keeps. destruct (truthy o); split; intro H; auto.
  - intros _. now apply String.eqb_eq.
  - apply String.eqb_eq. auto.
  - intro; discriminate.
Qed.

Lemma keeps_nullable_spec o v :
  keeps_nullable o v = true <-> (truthy o = true -> v = Some (fmt o)).
Proof.
  unfold keeps_nullable. destruct (truthy o); split; intro H; auto.
  - intros _. destruct v as [x|]; [|discriminate].
    apply String.eqb_eq in H. now subst.
  - rewrite H by reflexivity. apply String.eqb_refl.
  - intro; discriminate.
Qed.

Lemma issubset_spec wantd have :
  issubset wantd have = true <-> (forall x, In x wantd -> In x have).
Proof.
  unfold issubset. rewrite forallb_forall. split; intros H x I.
  - apply H in I. apply existsb_exists in I. destruct I as (y & I & Q).
    apply String.eqb_eq in Q. now subst.
  - apply existsb_exists. exists x. split; auto. apply String.eqb_refl.
Qed.

Lemma selected_spec st ty who prio tgs t :
  selected st ty who prio tgs t = true <-> wanted st ty who prio tgs t.
Proof.
  unfold selected, wanted. rewrite !andb_true_iff.
  rewrite !keeps_spec, keeps_nullable_spec.
  assert (T : (match tgs with [] => true | _ => issubset tgs (tags t) end) = true
              <-> (forall x, In x tgs -> In x (tags t))).
  { destruct tgs as [|g tgs].
    - split; auto. intros _ x [].
    - apply issubset_spec. }
  rewrite T. tauto.
Qed.

(** X9: [list_tasks] changes nothing and never raises.  What it returns are
    stored tasks that meet every filter given (a filter that is [None] or
    empty asks nothing; the [tags] filter asks for a superset); when its
    [SELECT] does not fail it returns all of them, and when it fails it
    returns the empty list. *)
Theorem list_tasks_filters env st ty who prio tgs w :
  unchanged w (after (list_tasks env st ty who prio tgs w)) /\
  exists l,
    returned (list_tasks env st ty who prio tgs w) = Val l /\
    (forall t, In t l ->
       In t (tasks (db w)) /\ wanted st ty who prio tgs t) /\
    (fails env SelectTasks (clock w) = false ->
     forall t, In t (tasks (db w)) -> wanted st ty who prio tgs t -> In t l) /\
    (fails env SelectTasks (clock w) = true -> l = []).
Proof.
  destruct (list_tasks env st ty who prio tgs w) as [r w'] eqn:E.
  unfold returned, after; cbn [fst snd].
  unfold list_tasks in E. paths E.
  - split; [repeat split|].
    exists (filter (selected st ty who prio tgs) (tasks (db w))).
    split; [reflexivity|]. split; [|split].
    + intros t I. apply filter_In in I. destruct I as [I S].
      split; auto. now apply selected_spec.
    + intros _ t I W. apply filter_In. split; auto. now apply selected_spec.
    + congruence.
  - split; [repeat split|].
    exists []. split; [reflexivity|]. split; [|split]; auto.
    + intros t [].
    + congruence.
Qed.

Lemma insert_desc_perm h l : Permutation (insert_desc h l) (h :: l).
Proof.
  induction l as [|x l IH]; cbn [insert_desc]; auto.
  destruct (Nat.ltb (timestamp x) (timestamp h)); auto.
  apply perm_trans with (x :: h :: l); [apply perm_skip, IH | apply perm_swap].
Qed.

Lemma insert_desc_sorted h l :
  Sorted newer_first l -> Sorted newer_first (insert_desc h l).
Proof.
  induction l as [|x l IH]; cbn [insert_desc]; intro S.
  - repeat constructor.
  - destruct (Nat.ltb (timestamp x) (timestamp h)) eqn:C.
    + apply Nat.ltb_lt in C. constructor; auto. constructor.
      unfold newer_first. lia.
    + apply Nat.ltb_ge in C. inversion S as [|? ? S' Hd]; subst.
      constructor; auto.
      destruct l as [|y l]; cbn [insert_desc].
      * constructor. exact C.
      * destruct (Nat.ltb (timestamp y) (timestamp h)).
        -- constructor. exact C.
        -- inversion Hd; subst. now constructor.
Qed.

Lemma order_by_timestamp_desc_spec l :
  Permutation (order_by_timestamp_desc l) l /\
  Sorted newer_first (order_by_timestamp_desc l).
Proof.
  unfold order_by_timestamp_desc.
  assert (G : forall acc,
            Sorted newer_first acc ->
            Permutation (fold_left (fun acc h => insert_desc h acc) l acc)
                        (l ++ acc) /\
            Sorted newer_first (fold_left (fun acc h => insert_desc h acc) l acc)).
  { induction l as [|x l IH]; intros acc S; cbn; auto.
    destruct (IH (insert_desc x acc) (insert_desc_sorted x acc S)) as [P S'].
    split; auto. apply perm_trans with (l ++ insert_desc x acc); auto.
    apply perm_trans with (l ++ x :: acc).
    - apply Permutation_app_head, insert_desc_perm.
    - apply Permutation_sym, Permutation_middle. }
  destruct (G [] (Sorted_nil _)) as [P S]. rewrite app_nil_r in P. auto.
Qed.

(** X10: [get_task] changes nothing and never raises.  For an id that is not
    stored it returns [None].  When it returns a task, the row is the stored
    row of that id and the history is made of exactly the entries of that
    task, newest first.  It returns the stored task whenever its two
    [SELECT]s do not fail. *)
Theorem get_task_reads env k w :
  unchanged w (after (get_task env k w)) /\
  (exists o, returned (get_task env k w) = Val o) /\
  (lookup k (db w) = None -> returned (get_task env k w) = Val None) /\
  (forall row h,
     returned (get_task env k w) = Val (Some (row, h)) ->
     lookup k (db w) = Some row /\
     Permutation h (filter (about k) (task_history (db w))) /\
     Sorted newer_first h) /\
  (fails env SelectTask (clock w) = false ->
   fails env SelectHistory (S (clock w)) = false ->
   forall row, lookup k (db w) = Some row ->
     exists h, returned (get_task env k w) = Val (Some (row, h))).
Proof.
  destruct (get_task env k w) as [r w'] eqn:E.
  unfold returned, after; cbn [fst snd]. unfold lookup.
  unfold get_task in E. paths E; cbn.
  all: split; [repeat split|].
  all: split; [eauto|].
  all: split; [try congruence; auto|].
  all: split.
  all: try (intros row h Q; discriminate Q).
  all: try (intros; congruence).
  - intros row h Q. inversion Q; subst. split; auto.
    apply order_by_timestamp_desc_spec.
  - intros _ _ row Q. inversion Q; subst. eauto.
  - intros _ F' row Q. cbn in *. congruence.
Qed.

(** ** More of the executor *)

(** X11: the executor refuses a task that is not stored or not automated:
    it returns false, spawns nothing, and leaves the store and the
    notification traces as they are, whichever statements fail. *)
Theorem execute_refuses env k w :
  lookup k (db w) = None \/
  (exists row, lookup k (db w) = Some row /\ type row <> "automated") ->
  returned (execute_automated_task env k w) = Val false /\
  unchanged w (after (execute_automated_task env k w)) /\
  spawned (after (execute_automated_task env k w)) = spawned w.
Proof.
  intro H.
  destruct (execute_automated_task env k w) as [r w'] eqn:E.
  unfold returned, after; cbn [fst snd].
  unfold execute_automated_task in E. paths E.
  all: match goal with
    | G : get_task _ _ _ = _ |- _ =>
        apply get_task_inv in G;
        destruct G as ((A & B & C & D') & S & X & o & Q & L)
    end; tidy.
  all: try discriminate.
  all: try (cbn in *; repeat split; congruence).
  all: exfalso; specialize (L _ _ eq_refl); cbn in L;
    destruct H as [H|(row & H & Ty)]; rewrite H in L; try discriminate;
    inversion L; subst; prune.
Qed.

Lemma execute_refuses_witness :
  returned (execute_automated_task Scenario.history_fails "T1" Scenario.synced)
  = Val false /\
  unchanged Scenario.synced
    (after (execute_automated_task Scenario.history_fails "T1" Scenario.synced)) /\
  spawned (after (execute_automated_task Scenario.history_fails "T1"
                    Scenario.synced))
  = spawned Scenario.synced.
Proof.
  apply (execute_refuses Scenario.history_fails "T1" Scenario.synced).
  right. eexists. split.
  - vm_compute. reflexivity.
  - discriminate.
Defined.

(** Concludes a walk with one of the two terminal statuses. *)
Ltac finish_terminal :=
  match goal with
  | L : lookup _ (db ?x) = Some ?r, S : status ?r = ?st,
    S0 : status ?r0 = TaskStatus.IN_PROGRESS,
    B : status ?r0 <> ?st -> exists t, task_history (db ?x) = _
    |- context [db ?x] =>
      rewrite S0 in B;
      let t := fresh "t" in
      destruct B as [t B]; [discriminate|];
      first [ left; split; [reflexivity|] | right; split; [reflexivity|] ];
      eexists; unfold ended; split;
      [rewrite L; cbn [option_map]; rewrite S; reflexivity
      | eexists; exists t; exact B]
  end.

(** X12: when no statement fails, an execution of a stored automated task
    never leaves it [in_progress]: it ends completed, and the call returns
    true, or it ends failed, and the call returns false; either way the
    last history entry is the transition out of [in_progress]. *)
Theorem execution_ends_completed_or_failed env k w row :
  fault_free env ->
  lookup k (db w) = Some row -> type row = "automated" ->
  (returned (execute_automated_task env k w) = Val true /\
   exists note,
     ended k TaskStatus.COMPLETED note
       (db (after (execute_automated_task env k w)))) \/
  (returned (execute_automated_task env k w) = Val false /\
   exists note,
     ended k TaskStatus.FAILED note
       (db (after (execute_automated_task env k w)))).
Proof.
  intros FF L Ty.
  destruct (execute_automated_task env k w) as [r w'] eqn:E.
  unfold returned, after; cbn [fst snd].
  unfold execute_automated_task in E.
  paths E; no_fault FF; forward FF; prune.
  all: finish_terminal.
Qed.

Lemma execution_ends_completed_or_failed_witness :
  (returned (execute_automated_task Scenario.quiet "J1" Scenario.ran)
   = Val true /\
   exists note,
     ended "J1" TaskStatus.COMPLETED note
       (db (after (execute_automated_task Scenario.quiet "J1" Scenario.ran)))) \/
  (returned (execute_automated_task Scenario.quiet "J1" Scenario.ran)
   = Val false /\
   exists note,
     ended "J1" TaskStatus.FAILED note
       (db (after (execute_automated_task Scenario.quiet "J1" Scenario.ran)))).
Proof.
  assert (L : exists row, lookup "J1" (db Scenario.ran) = Some row /\
                          type row = "automated").
  { eexists. split; [vm_compute; reflexivity | reflexivity]. }
  destruct L as (row & L & Ty).
  apply (execution_ends_completed_or_failed Scenario.quiet "J1" Scenario.ran
           row); auto.
  intros s t. reflexivity.
Defined.

(** ** More of the scheduler *)

Lemma selected_automated_eq t :
  selected None (Some "automated") None None [] t = (type t =? "automated").
Proof.
  unfold selected, keeps, keeps_nullable. cbn. now rewrite !andb_true_r.
Qed.

(** X13: a scan hands every automated task that is pending and scheduled to
    the executor, once each and in storage order, however the executions
    before it ended and whichever statements fail in them; when its own
    listing fails it hands over nothing. *)
Theorem scan_runs_every_due_task env w :
  idle w ->
  (fails env SelectTasks (clock w) = false ->
   executor_calls (after (check_and_execute_scheduled_tasks env w))
   = executor_calls w ++
     map id (filter due
               (filter (fun t => type t =? "automated") (tasks (db w))))) /\
  (fails env SelectTasks (clock w) = true ->
   executor_calls (after (check_and_execute_scheduled_tasks env w))
   = executor_calls w).
Proof.
  intro I.
  destruct (check_and_execute_scheduled_tasks env w) as [r w'] eqn:E.
  unfold after; cbn [snd].
  unfold check_and_execute_scheduled_tasks, list_tasks in E. paths E.
  all: match goal with H : scan _ _ _ = _ |- _ =>
         apply scan_calls in H;
         [destruct H as (_ & Q); cbn in Q
         | unfold idle in *; cbn; congruence] end.
  - split; [|congruence]. intros _. rewrite Q. f_equal. f_equal. f_equal.
    apply filter_ext. intro t. apply selected_automated_eq.
  - split; [congruence|]. intros _. rewrite Q. cbn. apply app_nil_r.
Qed.

Lemma scan_runs_every_due_task_witness :
  executor_calls
    (after (check_and_execute_scheduled_tasks Scenario.history_fails
              Scenario.synced))
  = executor_calls Scenario.synced ++
    map id (filter due
              (filter (fun t => type t =? "automated")
                      (tasks (db Scenario.synced)))).
Proof.
  apply (scan_runs_every_due_task Scenario.history_fails Scenario.synced).
  - vm_compute. reflexivity.
  - reflexivity.
Defined.

(** X14: a scan touches due tasks only: the row of every task that is not
    automated, or not pending, or has no schedule, is after the scan exactly
    as before, whichever statements fail. *)
Theorem scan_touches_due_tasks_only env w row :
  idle w -> unique_ids (db w) ->
  In row (tasks (db w)) ->
  type row <> "automated" \/ status row <> TaskStatus.PENDING \/
  truthy (schedule row) = false ->
  In row (tasks (db (after (check_and_execute_scheduled_tasks env w)))).
Proof.
  intros I U R S.
  destruct (check_and_execute_scheduled_tasks env w) as [r w'] eqn:E.
  unfold after; cbn [snd].
  unfold check_and_execute_scheduled_tasks in E. paths E.
  all: match goal with H : list_tasks _ _ _ _ _ _ _ = _ |- _ =>
         apply list_tasks_inv in H;
         destruct H as ((D & C & _) & _ & X & L) end.
  - match goal with H : scan _ _ _ = _ |- _ =>
      eapply (scan_keeps env row) in H end.
    + tauto.
    + unfold idle in *. cbn. congruence.
    + cbn. congruence.
    + intros t T Du Q. apply due_inv in Du. destruct Du as [P Sc].
      destruct L as [L|L]; inversion L; subst; [contradiction|].
      apply filter_In in T. destruct T as [T Se].
      apply selected_automated in Se.
      assert (t = row) by (eapply unique_row; eauto). subst.
      unfold TaskStatus.PENDING in *. destruct S as [S|[S|S]]; congruence.
  - destruct L as [L|L]; discriminate L.
Qed.

Lemma scan_touches_due_tasks_only_witness :
  match lookup "T1" (db Scenario.synced) with
  | Some row =>
      In row
        (tasks (db (after (check_and_execute_scheduled_tasks
                             Scenario.history_fails Scenario.synced))))
  | None => False
  end.
Proof.
  destruct (lookup "T1" (db Scenario.synced)) as [row|] eqn:L.
  - apply (scan_touches_due_tasks_only Scenario.history_fails Scenario.synced
             row).
    + vm_compute. reflexivity.
    + unfold unique_ids. vm_compute.
      repeat constructor; cbn; intuition discriminate.
    + vm_compute in L. inversion L; subst. vm_compute. auto.
    + vm_compute in L. inversion L; subst. left. discriminate.
  - vm_compute in L. discriminate L.
Defined.

(** ** More of the notifiers *)

Lemma truthy_some o :
  truthy o = true -> exists u, o = Some u /\ u <> "" /\ fmt o = u.
Proof.
  destruct o as [u|]; cbn; [|discriminate].
  intro H. apply negb_true_iff in H. apply String.eqb_neq in H. eauto.
Qed.

Lemma send_to_reaches env whs ev d w r w' :
  send_to env whs ev d w = (r, w') ->
  exists extra,
    posted w' = posted w ++ extra /\
    forall u d', In (u, d') extra ->
      d' = d /\
      exists wh, In wh whs /\ subscribed ev wh = true /\
                 url wh = Some u /\ u <> "".
Proof.
  revert w. induction whs as [|wh rest IH]; intros w E; cbn in E.
  - paths E. exists []. split; [now rewrite app_nil_r | intros ? ? []].
  - paths E; prune.
    all: try match goal with H : send_to _ _ _ _ _ = _ |- _ =>
           apply IH in H; destruct H as (extra & P & R) end.
    + exists extra. split; [exact P|]. intros u d' I.
      destruct (R u d' I) as (Q & wh' & I' & ?). split; auto.
      exists wh'. split; auto. now right.
    + exists extra. split; [exact P|]. intros u d' I.
      destruct (R u d' I) as (Q & wh' & I' & ?). split; auto.
      exists wh'. split; auto. now right.
    + destruct (truthy_some _ D0) as (u0 & U & N & Fm).
      exists ((u0, d) :: extra). split.
      * rewrite P. cbn. rewrite Fm, <- app_assoc. reflexivity.
      * intros u d' [Q|I].
        -- inversion Q; subst. split; auto. exists wh. split; [now left|].
           auto.
        -- destruct (R u d' I) as (Q & wh' & I' & ?). split; auto.
           exists wh'. split; auto. now right.
    + exists []. split; [cbn; now rewrite app_nil_r | intros ? ? []].
Qed.

(** X15: a notification only reaches subscribers.  Whatever fails, every
    post a notifier makes goes to the url of a configured webhook that lists
    the event and has a non-empty url, and carries the payload of the call;
    with [notify_assignees] off, nothing is posted at all. *)
Theorem notifications_reach_subscribers_only env w :
  (forall k ttl who,
     exists extra,
       posted (after (_notify_task_created env k ttl who w))
       = posted w ++ extra /\
       (notify_assignees env = false -> extra = []) /\
       forall u d, In (u, d) extra ->
         reachable env "task.created" u /\
         exists t, d = TaskCreated k ttl who t) /\
  (forall k ttl old new,
     exists extra,
       posted (after (_notify_status_change env k ttl old new w))
       = posted w ++ extra /\
       (notify_assignees env = false -> extra = []) /\
       forall u d, In (u, d) extra ->
         reachable env "task.status_changed" u /\
         exists t, d = StatusChanged k ttl old new t).
Proof.
  split.
  - intros k ttl who.
    destruct (_notify_task_created env k ttl who w) as [r w'] eqn:E.
    unfold after; cbn [snd].
    unfold _notify_task_created, _send_webhook_notifications in E.
    paths E; prune.
    + exists []. cbn. rewrite app_nil_r.
      split; [reflexivity|]. split; [reflexivity|]. intros ? ? [].
    + match goal with H : send_to _ _ _ _ _ = _ |- _ =>
        apply send_to_reaches in H; destruct H as (extra & P & R) end.
      exists extra. cbn in P. split; [exact P|]. split; [congruence|].
      intros u d I. destruct (R u d I) as (Q & wh & Hwh).
      split; [exists wh; exact Hwh | eexists; exact Q].
  - intros k ttl old new.
    destruct (_notify_status_change env k ttl old new w) as [r w'] eqn:E.
    unfold after; cbn [snd].
    unfold _notify_status_change, _send_webhook_notifications in E.
    paths E; prune.
    + exists []. cbn. rewrite app_nil_r.
      split; [reflexivity|]. split; [reflexivity|]. intros ? ? [].
    + match goal with H : send_to _ _ _ _ _ = _ |- _ =>
        apply send_to_reaches in H; destruct H as (extra & P & R) end.
      exists extra. cbn in P. split; [exact P|]. split; [congruence|].
      intros u d I. destruct (R u d I) as (Q & wh & Hwh).
      split; [exists wh; exact Hwh | eexists; exact Q].
Qed.

(** ** More of the synchronisation *)

Lemma agrees_columns a r :
  agrees a r ->
  title r = arg_title a /\ description r = arg_description a /\
  assignee r = arg_assignee a /\ executor r = arg_executor a /\
  due_date r = arg_due_date a /\ status r = arg_status a /\
  priority r = arg_priority a /\ tags r = or_empty (arg_tags a) /\
  prerequisites r = or_empty (arg_prerequisites a) /\
  type r = arg_task_type a /\ schedule r = arg_schedule a /\
  trigger r = arg_trigger a /\ script r = arg_script a /\
  parameters r = or_empty (arg_parameters a).
Proof.
  unfold agrees, forget_updated_at, updated_row. intro A.
  inversion A. repeat split; auto.
Qed.

Lemma lookup_id k d row : lookup k d = Some row -> id row = k.
Proof.
  unfold lookup. intro F. apply find_some in F. destruct F as [_ H].
  now apply has_id_true.
Qed.

(** X16: the synchronisation stores the manifest.  When nothing fails and
    the manifest declares no id twice, after [sync_tasks_from_config] every
    declared task is stored under its id with the declared columns, the
    declared status included, and with the defaults for what the manifest
    leaves out: status [pending], priority [medium], no tags, and the type
    of the section it was declared in. *)
Theorem sync_stores_the_manifest env config w :
  fault_free env -> enabled env = true -> NoDup (declared_ids config) ->
  let w' := after (sync_tasks_from_config env config w) in
  (forall d, In d (manual config) ->
     exists row, lookup (def_id d) (db w') = Some row /\ stores_manual d row) /\
  (forall d, In d (automated config) ->
     exists row, lookup (def_id d) (db w') = Some row /\
                 stores_automated d row).
Proof.
  intros FF En N. cbv zeta. rewrite sync_is_upsert_all by assumption.
  assert (S : forall a, In a (declared config) ->
            exists row,
              lookup (arg_task_id a)
                (db (after (upsert_all env (declared config) w))) = Some row /\
              agrees a row).
  { intros a I. apply settled_lookup. apply upsert_all_settles; auto.
    now rewrite declared_arg_ids. }
  split; intros d I.
  - destruct (S (manual_fields d)) as (row & L & A).
    { unfold declared. apply in_or_app. left. now apply in_map. }
    exists row. cbn in L. split; [exact L|].
    apply lookup_id in L. apply agrees_columns in A. cbn in A.
    unfold stores_manual. tauto.
  - destruct (S (automated_fields d)) as (row & L & A).
    { unfold declared. apply in_or_app. right. now apply in_map. }
    exists row. cbn in L. split; [exact L|].
    apply lookup_id in L. apply agrees_columns in A. cbn in A.
    unfold stores_automated. tauto.
Qed.

Lemma sync_stores_the_manifest_witness :
  let w' := after (sync_tasks_from_config Scenario.quiet Scenario.manifest
                     Scenario.ran) in
  (forall d, In d (manual Scenario.manifest) ->
     exists row, lookup (def_id d) (db w') = Some row /\ stores_manual d row) /\
  (forall d, In d (automated Scenario.manifest) ->
     exists row, lookup (def_id d) (db w') = Some row /\
                 stores_automated d row).
Proof.
  apply (sync_stores_the_manifest Scenario.quiet Scenario.manifest
           Scenario.ran).
  - intros s t. reflexivity.
  - reflexivity.
  - vm_compute. repeat constructor; cbn; intuition discriminate.
Defined.

(** ** Calls of the notifiers *)

Lemma update_task_status_calls env k new who note w r w' :
  update_task_status env k new who note w = (r, w') ->
  spawned w' = spawned w /\ executor_calls w' = executor_calls w /\
  exists b, r = Val b /\
    match lookup k (db w) with
    | None => notify_calls w' = notify_calls w
    | Some row =>
        if status row =? new then notify_calls w' = notify_calls w
        else announces (NotifyStatusChange k (title row) (status row) new)
               b w w'
    end.
Proof.
  intro E. unfold update_task_status in E. unfold lookup, announces.
  paths E; notified; cbn in *.
  all: repeat match goal with
    | H : find _ _ = _ |- _ => rewrite H
    | H : (_ =? _) = _ |- _ => rewrite H
    end.
  all: repeat split; try congruence.
  all: eexists; split; [reflexivity|].
  all: try congruence.
  all: try (split; [|intro; try discriminate; try congruence];
            solve [left; congruence | right; congruence]).
  destruct (find _ _) as [row|]; [destruct (_ =? _)|]; auto.
  split; [now left | discriminate].
Qed.

Lemma add_or_update_task_calls env a w r w' :
  add_or_update_task env a w = (r, w') ->
  spawned w' = spawned w /\ executor_calls w' = executor_calls w /\
  exists b, r = Val b /\
    match lookup (arg_task_id a) (db w) with
    | None =>
        announces (NotifyTaskCreated (arg_task_id a) (arg_title a)
                     (arg_assignee a)) b w w'
    | Some row =>
        if status row =? arg_status a then notify_calls w' = notify_calls w
        else announces (NotifyStatusChange (arg_task_id a) (arg_title a)
                          (status row) (arg_status a)) b w w'
    end.
Proof.
  intro E. unfold add_or_update_task in E. unfold lookup, announces.
  paths E; notified; cbn in *.
  all: repeat match goal with
    | H : negb _ = true |- _ => apply negb_true_iff in H
    | H : negb _ = false |- _ => apply negb_false_iff in H
    end.
  all: repeat match goal with
    | H : find _ _ = _ |- _ => rewrite H
    | H : (_ =? _) = _ |- _ => rewrite H
    end.
  all: repeat split; try congruence.
  all: eexists; split; [reflexivity|].
  all: try congruence.
  all: try (split; [|intro; try discriminate; try congruence];
            solve [left; congruence | right; congruence]).
  all: repeat match goal with
    | |- context [match find ?f ?l with _ => _ end] => destruct (find f l)
    | |- context [if ?c then _ else _] => destruct c
    end.
  all: try reflexivity.
  all: split; [now left | discriminate].
Qed.

(** X19: a change is announced once.  A status transition or an upsert
    calls the notifier at most once: for a transition with the stored title
    and the status it read, for an upsert with the title passed.  A call
    that succeeds and changes the status, or creates the task, makes the
    call exactly once; nothing is announced for a task that is not stored
    (transition) or for a status that stays the same, whichever statements
    fail. *)
Theorem changes_are_announced_once env w :
  (forall k new who note,
     exists b,
       returned (update_task_status env k new who note w) = Val b /\
       match lookup k (db w) with
       | None =>
           notify_calls (after (update_task_status env k new who note w))
           = notify_calls w
       | Some row =>
           if status row =? new
           then notify_calls (after (update_task_status env k new who note w))
                = notify_calls w
           else announces
                  (NotifyStatusChange k (title row) (status row) new) b w
                  (after (update_task_status env k new who note w))
       end) /\
  (forall a,
     exists b,
       returned (add_or_update_task env a w) = Val b /\
       match lookup (arg_task_id a) (db w) with
       | None =>
           announces
             (NotifyTaskCreated (arg_task_id a) (arg_title a) (arg_assignee a))
             b w (after (add_or_update_task env a w))
       | Some row =>
           if status row =? arg_status a
           then notify_calls (after (add_or_update_task env a w))
                = notify_calls w
           else announces
                  (NotifyStatusChange (arg_task_id a) (arg_title a)
                     (status row) (arg_status a)) b w
                  (after (add_or_update_task env a w))
       end).
Proof.
  split.
  - intros k new who note.
    destruct (update_task_status env k new who note w) as [r w'] eqn:E.
    apply update_task_status_calls in E. destruct E as (_ & _ & b & -> & H).
    exists b. split; [reflexivity | exact H].
  - intro a.
    destruct (add_or_update_task env a w) as [r w'] eqn:E.
    apply add_or_update_task_calls in E. destruct E as (_ & _ & b & -> & H).
    exists b. split; [reflexivity | exact H].
Qed.

(** ** What the executor spawns *)

Lemma execute_automated_task_spawns env k w r w' :
  execute_automated_task env k w = (r, w') ->
  executor_calls w' = executor_calls w ++ [k] /\
  exists b, r = Val b /\
    ((spawned w' = spawned w /\ b = false) \/
     exists row t,
       lookup k (db w) = Some row /\ type row = "automated" /\
       truthy (script row) = true /\
       path_exists env t (fmt (script row)) = true /\
       spawned w' =
       spawned w ++ [command (fmt (script row)) (parameters row)] /\
       (b = true <->
        exists out err,
          popen env t (command (fmt (script row)) (parameters row))
          = Exited 0 out err)).
Proof.
  intro E. unfold execute_automated_task in E. paths E.
  all: repeat match goal with
    | H : get_task _ _ _ = _ |- _ =>
        apply get_task_inv in H;
        destruct H as ((? & ? & ? & ?) & ? & ? & ? & ? & ?)
    | H : update_task_status _ _ _ _ _ _ = _ |- _ =>
        apply update_task_status_calls in H;
        destruct H as (? & ? & ? & ? & _)
    end; tidy.
  all: try discriminate.
  all: cbn in *.
  all: split; [congruence|].
  all: eexists; split; [reflexivity|].
  all: try (left; split; congruence).
  all: right;
    match goal with
    | H : forall row h, Some (?t, _) = _ -> _, D : popen _ ?c _ = _ |- _ =>
        exists t, c; specialize (H _ _ eq_refl)
    end.
  all: repeat match goal with
    | H : negb _ = false |- _ => apply negb_false_iff in H
    | H : (_ =? _) = true |- _ => apply String.eqb_eq in H
    | H : Nat.eqb _ _ = true |- _ => apply Nat.eqb_eq in H
    end.
  all: do 5 (split; [congruence|]).
  all: split; [intro; try discriminate|intros (out & err & P)].
  all: try congruence.
  - subst. eauto.
  - rewrite P in D2. inversion D2; subst. discriminate D3.
Qed.

(** X18: the executor runs the stored script, once.  A call of
    [execute_automated_task] never raises and spawns at most one process.
    It spawns one only for a stored automated task whose script is set and
    exists, and the command is the one built from the script and the
    parameters of the row as stored when the call began.  It returns true
    exactly when that process exited with code 0, whichever statements
    fail. *)
Theorem executor_runs_the_stored_script env k w :
  executor_calls (after (execute_automated_task env k w))
  = executor_calls w ++ [k] /\
  exists b,
    returned (execute_automated_task env k w) = Val b /\
    ((spawned (after (execute_automated_task env k w)) = spawned w /\
      b = false) \/
     exists row t,
       lookup k (db w) = Some row /\ type row = "automated" /\
       truthy (script row) = true /\
       path_exists env t (fmt (script row)) = true /\
       spawned (after (execute_automated_task env k w)) =
       spawned w ++ [command (fmt (script row)) (parameters row)] /\
       (b = true <->
        exists out err,
          popen env t (command (fmt (script row)) (parameters row))
          = Exited 0 out err)).
Proof.
  destruct (execute_automated_task env k w) as [r w'] eqn:E.
  apply execute_automated_task_spawns in E.
  destruct E as (C & b & -> & H). split; [exact C|].
  exists b. split; [reflexivity | exact H].
Qed.

(** ** The command [task execute] *)

(** X17: the command [task execute] guards the executor.  It never raises.
    It hands the task to the executor, once, exactly when the task is
    stored, its type is [automated] and neither of the two [SELECT]s of
    [get_task] fails; in every other case it leaves the store, the
    notification traces and the list of spawned processes as they are. *)
Theorem task_execute_guards env k w :
  returned (task_execute env k w) = Val tt /\
  match lookup k (db w) with
  | Some row =>
      if (type row =? "automated")
         && negb (fails env SelectTask (clock w))
         && negb (fails env SelectHistory (S (clock w)))
      then executor_calls (after (task_execute env k w))
           = executor_calls w ++ [k]
      else left_alone w (after (task_execute env k w))
  | None => left_alone w (after (task_execute env k w))
  end.
Proof.
  destruct (task_execute env k w) as [r w'] eqn:E.
  unfold returned, after; cbn [fst snd].
  unfold task_execute, get_task in E. unfold lookup, left_alone, unchanged.
  paths E.
  all: repeat match goal with
    | H : execute_automated_task _ _ _ = _ |- _ =>
        apply execute_automated_task_spawns in H;
        destruct H as (? & ? & ? & _)
    end; tidy.
  all: try discriminate.
  all: cbn in *.
  all: split; [reflexivity|].
  all: repeat match goal with
    | H : negb _ = true |- _ => apply negb_true_iff in H
    | H : negb _ = false |- _ => apply negb_false_iff in H
    end.
  all: repeat match goal with
    | H : (type _ =? _) = _ |- _ => rewrite H; clear H
    | H : fails _ _ _ = _ |- _ => rewrite H; clear H
    end.
  all: repeat match goal with
    | |- context [match find ?f ?l with _ => _ end] => destruct (find f l)
    | |- context [(?c =? ?d) && _] => destruct (c =? d)
    | |- context [negb (fails ?e ?s ?t)] => destruct (fails e s t)
    end.
  all: cbn.
  all: try (repeat split; reflexivity).
  all: congruence.
Qed.
